(** * Musicbot: the playback and queue controller of [cogs/music.py]

    A shallow embedding of the music cog.  Every command handler of the cog
    is an [async] method that reads and mutates one [wavelink.Player], talks
    to the audio node through that player and answers with embeds.  Here a
    handler is a computation in a small monad [M] that threads the player,
    records the backend commands and the embeds it sends, in order, and may
    stop with a Python exception.

    The handlers are modelled from the point where [ensure_voice] has
    returned the session's player; [await] is sequential composition. *)

From Stdlib Require Import ZArith List String Ascii Bool Lia.
From Stdlib Require Import QArith Qround Qreduction Qpower Qabs Lqa.
Import ListNotations.
Open Scope Z_scope.

(** ** config.py *)

Module Config.

Definition MAX_QUEUE_SIZE : Z := 1000.
Definition MAX_PLAYLIST_SIZE : Z := 500.

End Config.

(** ** Tracks *)

(** The attributes of a [wavelink] track the cog reads: [title], [author],
    [uri], [length] (milliseconds) and [isrc]. *)
Module Track.

Record t : Type := mk
  { title : string;
    author : string;
    uri : string;
    length : Z;
    isrc : option string }.

End Track.

(** ** The player's queue *)

Module QueueMode.

Inductive t : Type := normal | loop | loop_all.

End QueueMode.

(** Python exceptions a handler can stop with. *)
Inductive Exn : Type :=
| QueueEmpty        (* Queue.get() on an exhausted queue *)
| AttributeError    (* attribute access on None, e.g. player.current.title *)
| IndexError.       (* deque index out of range *)

Module Queue.

(** [player.queue]: the deque [_queue] the cog also touches directly
    ([appendleft], indexing, [del]), the [mode] set by the [loop] command,
    and the library's own bookkeeping used by [get]: the track handed out
    last ([_loaded]) and the [history] of played tracks. *)
Record t : Type := mk
  { _queue : list Track.t;
    mode : QueueMode.t;
    _loaded : option Track.t;
    history : list Track.t }.

Definition with_queue (l : list Track.t) (q : t) : t :=
  mk l (mode q) (_loaded q) (history q).

Definition with_mode (m : QueueMode.t) (q : t) : t :=
  mk (_queue q) m (_loaded q) (history q).

Definition with_loaded (o : option Track.t) (q : t) : t :=
  mk (_queue q) (mode q) o (history q).

Definition with_history (h : list Track.t) (q : t) : t :=
  mk (_queue q) (mode q) (_loaded q) h.

Definition empty : t := mk [] QueueMode.normal None [].

(** [len(player.queue)] *)
Definition len (q : t) : Z := Z.of_nat (List.length (_queue q)).

(** [player.queue.is_empty] *)
Definition is_empty (q : t) : bool :=
  match _queue q with [] => true | _ :: _ => false end.

(** [player.queue.put_wait(track)]: the track goes to the right end of the
    deque.  The queue of a player has no size limit of its own and the cog
    never gives it one. *)
Definition put_wait (track : Track.t) (q : t) : t :=
  with_queue (_queue q ++ [track]) q.

(** [player.queue._queue.appendleft(track)] *)
Definition appendleft (track : Track.t) (q : t) : t :=
  with_queue (track :: _queue q) q.

(** [player.queue.clear()] *)
Definition clear (q : t) : t := with_queue [] q.

(** [player.queue.get()].  In mode [loop] the track handed out last is
    handed out again and the deque is left alone; in mode [loop_all] an
    exhausted deque is first refilled from the history; otherwise the left
    end of the deque is popped, and [QueueEmpty] is raised when there is
    nothing to pop. *)
Definition get (q : t) : Exn + (Track.t * t) :=
  match mode q, _loaded q with
  | QueueMode.loop, Some track => inr (track, q)
  | _, _ =>
      let q1 :=
        match mode q, _queue q with
        | QueueMode.loop_all, [] => mk (history q) (mode q) (_loaded q) []
        | _, _ => q
        end in
      match _queue q1 with
      | [] => inl QueueEmpty
      | track :: rest => inr (track, with_loaded (Some track) (with_queue rest q1))
      end
  end.

(** [player.queue._queue[i]] for an index [0 <= i]. *)
Definition item (i : nat) (q : t) : Exn + Track.t :=
  match nth_error (_queue q) i with
  | Some track => inr track
  | None => inl IndexError
  end.

(** [del player.queue._queue[i]] for an index [0 <= i]. *)
Fixpoint del_list (i : nat) (l : list Track.t) : option (list Track.t) :=
  match i, l with
  | _, [] => None
  | O, _ :: rest => Some rest
  | S j, x :: rest =>
      match del_list j rest with
      | Some rest' => Some (x :: rest')
      | None => None
      end
  end.

Definition del (i : nat) (q : t) : Exn + t :=
  match del_list i (_queue q) with
  | Some l => inr (with_queue l q)
  | None => inl IndexError
  end.

End Queue.

(** ** The player *)

(** What reaches the audio node. *)
Inductive BackendCmd : Type :=
| BPlay (track : Track.t)
| BPause (value : bool)
| BStop
| BSeek (position : Z).

(** The value of [_create_progress_bar]: the cells of the bar in order
    ([true] for a filled cell, [false] for an empty one) and the two
    [minutes:seconds] readings. *)
Record ProgressBar : Type := mkProgressBar
  { bar : list bool;
    current_time : Z * Z;
    total_time : Z * Z }.

(** The embeds the modelled handlers send, by what they say; the fields
    that only render a duration are left out. *)
Inductive Embed : Type :=
| NowPlaying (track : Track.t)                      (* "Now Playing", track end *)
| NoTracksFound (query : string)                    (* "No tracks found for ..." *)
| NowPlayingFirst (track : Track.t) (queue_position : Z)
| AddedToQueue (track : Track.t) (position : Z)     (* "Added to Queue", "#n" *)
| AddedToTop (track : Track.t) (position : Z)       (* "Added to Top of Queue" *)
| NoTrackPlaying                                    (* "No track is currently playing" *)
| AlreadyPaused                                     (* "Track is already paused" *)
| Paused (track : Track.t)
| NoPausedTrack                                     (* "No paused track to resume" *)
| Resumed (track : Track.t)
| Stopped                                           (* "Music stopped and queue cleared" *)
| InvalidSeekPosition (duration_seconds : Z)
| Seeked (minutes seconds : Z)
| QueueIsEmpty                                      (* "Queue is empty" *)
| InvalidPosition (tracks : Z)                      (* "Invalid position. Queue has n tracks" *)
| RemovedFromQueue (track : Track.t)
| InvalidLoopMode
| LoopMode (message : string)
| Rewound (seconds : Z)
| Forwarded (seconds : Z)
| NowPlayingStatus (track : Track.t) (progress : ProgressBar) (queue_total : Z).

(** Where an embed goes: the invoking context ([ctx.send]) or the session's
    home channel ([player.home.send]). *)
Inductive Sink : Type := ctx | home.

Inductive Event : Type :=
| Backend (cmd : BackendCmd)
| Send (to : Sink) (embed : Embed).

Module Player.

(** The state of a [wavelink.Player] the cog reads: its queue, the
    current track, the pause flag and the playback position (ms). *)
Record t : Type := mk
  { queue : Queue.t;
    current : option Track.t;
    paused : bool;
    position : Z }.

Definition with_queue (q : Queue.t) (p : t) : t :=
  mk q (current p) (paused p) (position p).

Definition with_current (c : option Track.t) (p : t) : t :=
  mk (queue p) c (paused p) (position p).

Definition with_paused (b : bool) (p : t) : t :=
  mk (queue p) (current p) b (position p).

Definition with_position (z : Z) (p : t) : t :=
  mk (queue p) (current p) (paused p) z.

(** [player.is_playing()]: a track is loaded, paused or not. *)
Definition is_playing (p : t) : bool :=
  match current p with Some _ => true | None => false end.

(** [player.is_paused()] *)
Definition is_paused (p : t) : bool := paused p.

End Player.

(** The states of the session controller. *)
Inductive State : Type := Idle | Playing | PausedState.

Definition state_of (p : Player.t) : State :=
  match Player.current p with
  | None => Idle
  | Some _ => if Player.paused p then PausedState else Playing
  end.

(** ** The monad of the handlers *)

Record Result (A : Type) : Type := mkResult
  { outcome : Exn + A;
    final : Player.t;
    trace : list Event }.

Arguments mkResult {A} _ _ _.
Arguments outcome {A} _.
Arguments final {A} _.
Arguments trace {A} _.

Definition M (A : Type) : Type := Player.t -> Result A.

Definition ret {A : Type} (a : A) : M A :=
  fun p => mkResult (inr a) p [].

Definition raise {A : Type} (e : Exn) : M A :=
  fun p => mkResult (inl e) p [].

Definition bind {A B : Type} (m : M A) (k : A -> M B) : M B :=
  fun p =>
    let r := m p in
    match outcome r with
    | inl e => mkResult (inl e) (final r) (trace r)
    | inr a =>
        let r' := k a (final r) in
        mkResult (outcome r') (final r') (trace r ++ trace r')
    end.

Notation "x <- m ;; k" := (bind m (fun x => k))
  (at level 61, m at next level, right associativity).
Notation "m ;; k" := (bind m (fun _ => k))
  (at level 61, right associativity).

(** Reading and updating the player. *)
Definition read {A : Type} (f : Player.t -> A) : M A :=
  fun p => mkResult (inr (f p)) p [].

Definition update (f : Player.t -> Player.t) : M unit :=
  fun p => mkResult (inr tt) (f p) [].

Definition emit (e : Event) : M unit :=
  fun p => mkResult (inr tt) p [e].

Definition lift {A : Type} (x : Exn + A) : M A :=
  match x with
  | inl e => raise e
  | inr a => ret a
  end.

Definition send (to : Sink) (embed : Embed) : M unit := emit (Send to embed).

(** [x.attr] for an [x] that may be [None]. *)
Definition attr {A : Type} (o : option A) : M A :=
  match o with
  | Some a => ret a
  | None => raise AttributeError
  end.

(** ** The calls on the player *)

(** The player and its queue belong to the [wavelink] library, which is not
    part of the repository.  Each call the cog makes is given the effect the
    cog relies on: the command that reaches the node, and the change of the
    player's state the cog can read back afterwards. *)

Module Call.

(** [await player.play(track)]: the node starts the track, which becomes
    the current one, from position 0; the queue records it in its
    history.  The call returns the track. *)
Definition play (track : Track.t) : M Track.t :=
  emit (Backend (BPlay track)) ;;
  update (fun p =>
    Player.with_queue
      (Queue.with_history (Queue.history (Player.queue p) ++ [track]) (Player.queue p))
      (Player.with_position 0 (Player.with_current (Some track) p))) ;;
  ret track.

(** [await player.pause(value)] *)
Definition pause (value : bool) : M unit :=
  emit (Backend (BPause value)) ;;
  update (Player.with_paused value).

(** [await player.stop()]: the node drops the current track, and the queue
    forgets the track it handed out last. *)
Definition stop : M unit :=
  emit (Backend BStop) ;;
  update (fun p =>
    Player.with_queue (Queue.with_loaded None (Player.queue p))
      (Player.with_position 0 (Player.with_current None p))).

(** [await player.seek(position)] *)
Definition seek (position : Z) : M unit :=
  emit (Backend (BSeek position)) ;;
  update (Player.with_position position).

(** [player.queue.get()] *)
Definition queue_get : M Track.t :=
  q <- read Player.queue ;;
  match Queue.get q with
  | inl e => raise e
  | inr (track, q') => update (Player.with_queue q') ;; ret track
  end.

(** [await player.queue.put_wait(track)] *)
Definition queue_put_wait (track : Track.t) : M unit :=
  update (fun p => Player.with_queue (Queue.put_wait track (Player.queue p)) p).

(** [player.queue._queue.appendleft(track)] *)
Definition queue_appendleft (track : Track.t) : M unit :=
  update (fun p => Player.with_queue (Queue.appendleft track (Player.queue p)) p).

(** [player.queue.clear()] *)
Definition queue_clear : M unit :=
  update (fun p => Player.with_queue (Queue.clear (Player.queue p)) p).

(** The node reports that the current track has ended: the player has no
    current track any more when [on_wavelink_track_end] is dispatched. *)
Definition track_ended (p : Player.t) : Player.t :=
  Player.with_current None p.

End Call.

(** ** Floating point *)

(** Python's floats are the binary64 numbers: 53 significant bits, results
    rounded to the nearest number, ties to the even one.  A float is taken
    here as the rational it denotes.  The exponent range of binary64 is not
    modelled: a result is the float Python computes as long as it is 0 or
    its magnitude lies between 2^-1022 and 2^1023, which holds for every
    quotient and product of the 64-bit positions and lengths the node
    reports. *)
Module Binary64.

(** The exponent [e] of a number that is not 0: [2^e <= |x| < 2^(e+1)]. *)
Definition ilog2 (x : Q) : Z :=
  let e := Z.log2 (Z.abs (Qnum x)) - Z.log2 (Zpos (Qden x)) in
  if Qle_bool (2 ^ e) (Qabs x) then e else e - 1.

(** The nearest integer, the even one of the two when [x] lies half way. *)
Definition rne (x : Q) : Z :=
  let f := Qfloor x in
  match (x - inject_Z f ?= 1 # 2)%Q with
  | Lt => f
  | Gt => f + 1
  | Eq => if Z.even f then f else f + 1
  end.

(** Rounding a number in lowest terms to 53 significant bits. *)
Definition round_reduced (x : Q) : Q :=
  if Qeq_bool x 0 then 0%Q
  else
    let shift := 52 - ilog2 x in
    Qred (inject_Z (rne (x * 2 ^ shift)) * 2 ^ (- shift))%Q.

Definition round (x : Q) : Q := round_reduced (Qred x).

End Binary64.

(** ** The cog *)

Module Music.

(** [on_wavelink_track_end(player, track, reason)] *)
Definition on_wavelink_track_end : M unit :=
  q <- read Player.queue ;;
  if Queue.is_empty q then ret tt
  else
    track <- Call.queue_get ;;
    next_track <- Call.play track ;;
    send home (NowPlaying next_track).

(** [play(ctx, query)]; [tracks] is what the search for [query] gave. *)
Definition play (query : string) (tracks : list Track.t) : M unit :=
  match tracks with
  | [] => send ctx (NoTracksFound query)
  | track :: _ =>
      Call.queue_put_wait track ;;
      playing <- read Player.is_playing ;;
      if negb playing then
        next <- Call.queue_get ;;
        Call.play next ;;
        send ctx (NowPlayingFirst track 1)
      else
        n <- read (fun p => Queue.len (Player.queue p)) ;;
        send ctx (AddedToQueue track n)
  end.

(** [playtop(ctx, query)] *)
Definition playtop (query : string) (tracks : list Track.t) : M unit :=
  match tracks with
  | [] => send ctx (NoTracksFound query)
  | track :: _ =>
      Call.queue_appendleft track ;;
      playing <- read Player.is_playing ;;
      (if negb playing then
         next <- Call.queue_get ;;
         Call.play next ;;
         ret tt
       else ret tt) ;;
      send ctx (AddedToTop track 1)
  end.

(** [pause(ctx)] *)
Definition pause : M unit :=
  paused <- read Player.is_paused ;;
  if paused then send ctx AlreadyPaused
  else
    Call.pause true ;;
    current <- read Player.current ;;
    track <- attr current ;;
    send ctx (Paused track).

(** [resume(ctx)] *)
Definition resume : M unit :=
  paused <- read Player.is_paused ;;
  if negb paused then send ctx NoPausedTrack
  else
    Call.pause false ;;
    current <- read Player.current ;;
    track <- attr current ;;
    send ctx (Resumed track).

(** [stop(ctx)] *)
Definition stop : M unit :=
  Call.stop ;;
  Call.queue_clear ;;
  send ctx Stopped.

(** [int(x)] of a float: truncation towards zero. *)
Definition int (x : Q) : Z :=
  if Qle_bool 0 x then Qfloor x else Qceiling x.

(** The number of filled cells [_create_progress_bar] computes.  With
    [total == 0] the percentage is the integer 0 and so is the product.
    Otherwise [current / total] is the true division of two integers, whose
    value is the quotient rounded to a float, and [bar_length * percent]
    converts [bar_length] to a float and rounds the product. *)
Definition filled (current total bar_length : Z) : Z :=
  if total =? 0 then bar_length * 0
  else
    int (Binary64.round
           (Binary64.round (inject_Z bar_length) *
            Binary64.round (inject_Z current / inject_Z total))%Q).

(** [_create_progress_bar(current, total, bar_length=20)]; a string
    repeated a negative number of times is empty. *)
Definition _create_progress_bar (current total bar_length : Z) : ProgressBar :=
  let n := filled current total bar_length in
  mkProgressBar
    (repeat true (Z.to_nat n) ++ repeat false (Z.to_nat (bar_length - n)))
    (current / 60000, current mod 60000 / 1000)
    (total / 60000, total mod 60000 / 1000).

(** The default of [bar_length]. *)
Definition bar_length_default : Z := 20.

(** [now(ctx)] *)
Definition now : M unit :=
  playing <- read Player.is_playing ;;
  if negb playing then send ctx NoTrackPlaying
  else
    current <- read Player.current ;;
    track <- attr current ;;
    position <- read Player.position ;;
    let duration := Track.length track in
    let progress_bar := _create_progress_bar position duration bar_length_default in
    n <- read (fun p => Queue.len (Player.queue p)) ;;
    send ctx (NowPlayingStatus track progress_bar (n + 1)).

(** [seek(ctx, seconds)] *)
Definition seek (seconds : Z) : M unit :=
  playing <- read Player.is_playing ;;
  if negb playing then send ctx NoTrackPlaying
  else
    current <- read Player.current ;;
    track <- attr current ;;
    if (seconds <? 0) || (seconds * 1000 >? Track.length track) then
      send ctx (InvalidSeekPosition (Track.length track / 1000))
    else
      Call.seek (seconds * 1000) ;;
      send ctx (Seeked (seconds / 60) (seconds mod 60)).

(** [remove(ctx, position)]; past the two guards [position - 1] is a
    non-negative index. *)
Definition remove (position : Z) : M unit :=
  n <- read (fun p => Queue.len (Player.queue p)) ;;
  if n =? 0 then send ctx QueueIsEmpty
  else if (position <? 1) || (position >? n) then send ctx (InvalidPosition n)
  else
    q <- read Player.queue ;;
    track <- lift (Queue.item (Z.to_nat (position - 1)) q) ;;
    q' <- lift (Queue.del (Z.to_nat (position - 1)) q) ;;
    update (Player.with_queue q') ;;
    send ctx (RemovedFromQueue track).

(** [str.lower()] on UTF-8 text, as far as its result is ASCII: the
    capitals A to Z are lowered, and so is the Kelvin sign U+212A (bytes
    226 132 170), the one character outside ASCII whose lower case is an
    ASCII letter, k.  Every other character outside ASCII is left as it is;
    Python may lower it to other characters outside ASCII. *)
Definition lower_ascii (c : ascii) : ascii :=
  let n := nat_of_ascii c in
  if ((65 <=? n) && (n <=? 90))%nat then ascii_of_nat (n + 32) else c.

Fixpoint lower (s : string) : string :=
  match s with
  | EmptyString => EmptyString
  | String c rest =>
      match rest with
      | String c2 (String c3 rest') =>
          if ((nat_of_ascii c =? 226) && (nat_of_ascii c2 =? 132)
              && (nat_of_ascii c3 =? 170))%nat
          then String "k" (lower rest')
          else String (lower_ascii c) (lower rest)
      | _ => String (lower_ascii c) (lower rest)
      end
  end.

Definition set_mode (m : QueueMode.t) : M unit :=
  update (fun p => Player.with_queue (Queue.with_mode m (Player.queue p)) p).

(** [loop(ctx, mode="track")] *)
Definition loop (mode : string) : M unit :=
  let mode := lower mode in
  if negb (existsb (String.eqb mode) ["track"; "queue"; "off"]%string) then
    send ctx InvalidLoopMode
  else
    message <-
      (if String.eqb mode "track" then
         set_mode QueueMode.loop ;; ret "Track looping enabled"%string
       else if String.eqb mode "queue" then
         set_mode QueueMode.loop_all ;; ret "Queue looping enabled"%string
       else
         set_mode QueueMode.normal ;; ret "Looping disabled"%string) ;;
    send ctx (LoopMode message).

(** [rewind(ctx, seconds=10)] *)
Definition rewind (seconds : Z) : M unit :=
  playing <- read Player.is_playing ;;
  if negb playing then send ctx NoTrackPlaying
  else
    position <- read Player.position ;;
    let new_position := Z.max 0 (position - seconds * 1000) in
    Call.seek new_position ;;
    send ctx (Rewound seconds).

(** [forward(ctx, seconds=10)] *)
Definition forward (seconds : Z) : M unit :=
  playing <- read Player.is_playing ;;
  if negb playing then send ctx NoTrackPlaying
  else
    current <- read Player.current ;;
    track <- attr current ;;
    position <- read Player.position ;;
    let new_position := Z.min (Track.length track) (position + seconds * 1000) in
    Call.seek new_position ;;
    send ctx (Forwarded seconds).

(** A track-ended event reaching the session: the node's bookkeeping,
    then the cog's listener. *)
Definition track_end_event (p : Player.t) : Result unit :=
  on_wavelink_track_end (Call.track_ended p).

End Music.

(** ** Sample sessions *)

Definition track_a : Track.t :=
  Track.mk "song A" "artist A" "https://youtu.be/a" 200000 None.

Definition track_b : Track.t :=
  Track.mk "song B" "artist B" "https://youtu.be/b" 180000 (Some "USRC17607839"%string).

Definition track_c : Track.t :=
  Track.mk "song C" "artist C" "https://youtu.be/c" 240000 None.

(** A session right after the voice connection: nothing plays, nothing is
    queued. *)
Definition fresh_player : Player.t :=
  Player.mk Queue.empty None false 0.

(** A session playing [track] with [queued] waiting. *)
Definition playing_player (track : Track.t) (queued : list Track.t) : Player.t :=
  Player.mk (Queue.mk queued QueueMode.normal (Some track) [track]) (Some track) false 0.

(** Running handlers one after the other on a session. *)
Definition then_run {A B : Type} (r : Result A) (m : M B) : Result B :=
  let r' := m (final r) in
  mkResult (outcome r') (final r') (trace r ++ trace r').

(** A session playing [track_a] whose queue holds [MAX_QUEUE_SIZE] tracks. *)
Definition full_player : Player.t :=
  playing_player track_a (repeat track_b (Z.to_nat Config.MAX_QUEUE_SIZE)).

(** A session that played [track_a] from an empty queue and then had
    [loop track] switched on. *)
Definition looping_player : Player.t :=
  final (then_run (Music.play "song A" [track_a] fresh_player) (Music.loop "track")).

(** ** The commands that list, skip, clear and search *)

(** These commands of the cog send one embed each, to the invoking context,
    and at most one command to the node. *)
Module Cog.

(** What these commands ask of the node. *)
Inductive Command : Type :=
| Skip.                      (* await player.skip() *)

(** The description of the queue embed: the numbered lines, or the text
    that stands in for an empty listing. *)
Inductive Description : Type :=
| Lines (entries : list (Z * Track.t))
| NoTracksInThisPage.

Inductive Reply : Type :=
| EmptyQueue                                  (* "Queue is empty" *)
| InvalidPage (pages : Z)                     (* "Invalid page number. Total pages: n" *)
| QueuePage (description : Description) (currently_playing : option Track.t)
            (page pages total : Z)
| NotPlaying                                  (* "No track is currently playing" *)
| Skipped (track : Track.t)
| QueueAlreadyEmpty                           (* "Queue is already empty" *)
| QueueCleared
| NoTracks (query : string)
| SearchResults (query : string) (entries : list (Z * Track.t)).

Record Outcome : Type := mkOutcome
  { after : Player.t;
    commands : list Command;
    reply : Exn + Reply }.

(** [enumerate(items, start=start)] *)
Fixpoint enumerate (start : Z) (items : list Track.t) : list (Z * Track.t) :=
  match items with
  | [] => []
  | track :: rest => (start, track) :: enumerate (start + 1) rest
  end.

(** [items[start:stop]] for [0 <= start]. *)
Definition slice (start stop : Z) (items : list Track.t) : list Track.t :=
  firstn (Z.to_nat (stop - start)) (skipn (Z.to_nat start) items).

Definition items_per_page : Z := 10.

(** [queue(ctx, page=1)] *)
Definition queue (page : Z) (p : Player.t) : Outcome :=
  let n := Queue.len (Player.queue p) in
  if n =? 0 then mkOutcome p [] (inr EmptyQueue)
  else
    let pages := (n + items_per_page - 1) / items_per_page in
    if (page >? pages) || (page <? 1) then mkOutcome p [] (inr (InvalidPage pages))
    else
      let start := (page - 1) * items_per_page in
      let stop := start + items_per_page in
      let queue_list :=
        enumerate (start + 1) (slice start stop (Queue._queue (Player.queue p))) in
      let description :=
        match queue_list with
        | [] => NoTracksInThisPage
        | _ :: _ => Lines queue_list
        end in
      mkOutcome p [] (inr (QueuePage description (Player.current p) page pages n)).

(** [await player.skip()]: the node is asked to end the track and the
    queue forgets the track it handed out last; the current track stays
    until the track-ended event arrives. *)
Definition player_skip (p : Player.t) : Player.t :=
  Player.with_queue (Queue.with_loaded None (Player.queue p)) p.

(** [skip(ctx)] *)
Definition skip (p : Player.t) : Outcome :=
  if negb (Player.is_playing p) then mkOutcome p [] (inr NotPlaying)
  else
    let current := Player.current p in
    let p' := player_skip p in
    match current with
    | Some track => mkOutcome p' [Skip] (inr (Skipped track))
    | None => mkOutcome p' [Skip] (inl AttributeError)
    end.

(** [clear(ctx)] *)
Definition clear (p : Player.t) : Outcome :=
  if Queue.len (Player.queue p) =? 0 then mkOutcome p [] (inr QueueAlreadyEmpty)
  else
    mkOutcome (Player.with_queue (Queue.clear (Player.queue p)) p) [] (inr QueueCleared).

(** [search(ctx, query)]; [tracks] is what the search for [query] gave. *)
Definition search (query : string) (tracks : list Track.t) : Reply :=
  match tracks with
  | [] => NoTracks query
  | _ :: _ => SearchResults query (enumerate 1 (firstn 10 tracks))
  end.

End Cog.

(** ** Sequences of commands *)

(** The commands of [Music] with their arguments. *)
Inductive Cmd : Type :=
| CmdPlay (query : string) (tracks : list Track.t)
| CmdPlaytop (query : string) (tracks : list Track.t)
| CmdPause
| CmdResume
| CmdStop
| CmdNow
| CmdSeek (seconds : Z)
| CmdRemove (position : Z)
| CmdLoop (mode : string)
| CmdRewind (seconds : Z)
| CmdForward (seconds : Z).

Definition exec (c : Cmd) : M unit :=
  match c with
  | CmdPlay query tracks => Music.play query tracks
  | CmdPlaytop query tracks => Music.playtop query tracks
  | CmdPause => Music.pause
  | CmdResume => Music.resume
  | CmdStop => Music.stop
  | CmdNow => Music.now
  | CmdSeek seconds => Music.seek seconds
  | CmdRemove position => Music.remove position
  | CmdLoop mode => Music.loop mode
  | CmdRewind seconds => Music.rewind seconds
  | CmdForward seconds => Music.forward seconds
  end.

(** The embeds that refuse a command. *)
Definition refusal (e : Embed) : bool :=
  match e with
  | NoTracksFound _ | NoTrackPlaying | AlreadyPaused | NoPausedTrack
  | InvalidSeekPosition _ | QueueIsEmpty | InvalidPosition _ | InvalidLoopMode => true
  | _ => false
  end.

(** The same handler [n] times in a row. *)
Fixpoint times (n : nat) (m : M unit) : M unit :=
  match n with
  | O => ret tt
  | S k => m ;; times k m
  end.

(** The embeds of a trace and the backend commands of a trace. *)
Definition sends (events : list Event) : list (Sink * Embed) :=
  flat_map (fun e => match e with Send to embed => [(to, embed)] | Backend _ => [] end)
           events.

Definition backend (events : list Event) : list BackendCmd :=
  flat_map (fun e => match e with Backend cmd => [cmd] | Send _ _ => [] end) events.

(** How a command can end: refused, with the player as it was and the
    refusal as the only event; done, with some commands to the node followed
    by one reply; or stopped by a missing current track after the pause
    command has gone out. *)
Inductive Ending (c : Cmd) (p : Player.t) : Result unit -> Prop :=
| Refused (e : Embed) :
    refusal e = true ->
    Ending c p (mkResult (inr tt) p [Send ctx e])
| Done (e : Embed) (p' : Player.t) (cmds : list BackendCmd) :
    refusal e = false ->
    Ending c p (mkResult (inr tt) p' (map Backend cmds ++ [Send ctx e]))
| Crashed :
    (c = CmdPause \/ c = CmdResume) ->
    Player.current p = None ->
    Ending c p
      (mkResult (inl AttributeError)
         (Player.with_paused (negb (Player.paused p)) p)
         [Backend (BPause (negb (Player.paused p)))]).

(** ** Proof support *)

Ltac run :=
  cbv [Music.on_wavelink_track_end Music.track_end_event Music.play
       Music.playtop Music.pause Music.resume Music.stop Music.now Music.seek
       Music.remove Music.rewind Music.forward Music.set_mode
       Call.play Call.pause Call.stop Call.seek Call.queue_get
       Call.queue_put_wait Call.queue_appendleft Call.queue_clear
       Call.track_ended
       bind ret raise read update emit send attr lift
       outcome final trace
       Player.is_playing Player.is_paused Player.queue Player.current
       Player.paused Player.position Player.with_queue Player.with_current
       Player.with_paused Player.with_position].

Lemma is_playing_current (p : Player.t) :
  Player.is_playing p = true <-> Player.current p <> None.
Proof.
  unfold Player.is_playing. destruct (Player.current p); split; congruence.
Qed.

Lemma state_of_idle (p : Player.t) :
  state_of p = Idle <-> Player.current p = None.
Proof.
  unfold state_of. destruct (Player.current p).
  - destruct (Player.paused p); split; discriminate.
  - split; reflexivity.
Qed.

(** On a deque that is not exhausted [get] always hands out a track. *)
Lemma get_nonempty (q : Queue.t) :
  Queue._queue q <> [] -> exists track q', Queue.get q = inr (track, q').
Proof.
  intros Hne. unfold Queue.get.
  destruct (Queue.mode q) eqn:Hm, (Queue._loaded q) eqn:Hl;
    destruct (Queue._queue q) eqn:Hq; try congruence; simpl;
    try rewrite Hq; eauto.
Qed.

(** In mode [normal] [get] pops the left end. *)
Lemma get_normal (q : Queue.t) (track : Track.t) (rest : list Track.t) :
  Queue.mode q = QueueMode.normal ->
  Queue._queue q = track :: rest ->
  Queue.get q = inr (track, Queue.with_loaded (Some track) (Queue.with_queue rest q)).
Proof.
  intros Hm Hq. unfold Queue.get. rewrite Hm.
  destruct (Queue._loaded q); rewrite Hq; reflexivity.
Qed.

(** In mode [loop], once a track has been handed out, [get] hands it out
    again and leaves the queue as it is. *)
Lemma get_loop (q : Queue.t) (track : Track.t) :
  Queue.mode q = QueueMode.loop ->
  Queue._loaded q = Some track ->
  Queue.get q = inr (track, q).
Proof.
  intros Hm Hl. unfold Queue.get. rewrite Hm, Hl. reflexivity.
Qed.

(** Outside mode [loop], [get] on a deque that holds something pops its
    left end; this is so in mode [loop_all] too, where the history is only
    put back when the deque is exhausted. *)
Lemma get_pop (q : Queue.t) (track : Track.t) (rest : list Track.t) :
  Queue.mode q <> QueueMode.loop ->
  Queue._queue q = track :: rest ->
  Queue.get q = inr (track, Queue.with_loaded (Some track) (Queue.with_queue rest q)).
Proof.
  intros Hm Hq. unfold Queue.get.
  destruct (Queue.mode q) eqn:E; try congruence;
    destruct (Queue._loaded q); rewrite Hq; cbn; try rewrite Hq; reflexivity.
Qed.

(** ** stop *)

(** C10.  [stop] has no precondition: on every session, whatever plays and
    whatever is queued (nothing at all included), it completes without an
    exception and without an error reply, the backend stop is issued, and
    afterwards the queue is empty and there is no current track. *)
Theorem stop_has_no_precondition (p : Player.t) :
  outcome (Music.stop p) = inr tt /\
  trace (Music.stop p) = [Backend BStop; Send ctx Stopped] /\
  Queue._queue (Player.queue (final (Music.stop p))) = [] /\
  Player.current (final (Music.stop p)) = None /\
  state_of (final (Music.stop p)) = Idle.
Proof.
  repeat split.
Qed.

(** ** pause and resume *)

(** C9.  [pause] answers "already paused" exactly when the session is
    paused, [resume] answers "no paused track" exactly when it is not; a
    refused command leaves the player as it was and sends nothing to the
    backend; a command that is not refused issues the backend pause
    (respectively resume) and sets the flag. *)
Theorem pause_resume_contract (p : Player.t) :
  (In (Send ctx AlreadyPaused) (trace (Music.pause p)) <-> Player.paused p = true) /\
  (Player.paused p = true ->
     Music.pause p = mkResult (inr tt) p [Send ctx AlreadyPaused]) /\
  (Player.paused p = false ->
     hd_error (trace (Music.pause p)) = Some (Backend (BPause true)) /\
     Player.paused (final (Music.pause p)) = true) /\
  (In (Send ctx NoPausedTrack) (trace (Music.resume p)) <-> Player.paused p = false) /\
  (Player.paused p = false ->
     Music.resume p = mkResult (inr tt) p [Send ctx NoPausedTrack]) /\
  (Player.paused p = true ->
     hd_error (trace (Music.resume p)) = Some (Backend (BPause false)) /\
     Player.paused (final (Music.resume p)) = false).
Proof.
  destruct p as [q c b pos]. run.
  destruct b, c as [track|]; simpl;
    repeat split; intros; try reflexivity; try discriminate;
    repeat match goal with
           | H : _ \/ _ |- _ => destruct H
           | H : False |- _ => destruct H
           | H : _ = _ |- _ => discriminate H
           end; auto.
Qed.

(** ** The track-ended listener *)

(** What the listener does, by the deque alone: nothing when it is empty;
    otherwise it takes what [get] hands out, keeps the queue [get] leaves,
    plays that track from position 0 and announces it in the home
    channel. *)
Lemma track_end_event_cases (p : Player.t) :
  match Queue._queue (Player.queue p) with
  | [] => Music.track_end_event p = mkResult (inr tt) (Call.track_ended p) []
  | _ :: _ =>
      exists track q',
        Queue.get (Player.queue p) = inr (track, q') /\
        Music.track_end_event p =
          mkResult (inr tt)
            (Player.mk (Queue.with_history (Queue.history q' ++ [track]) q')
               (Some track) (Player.paused p) 0)
            [Backend (BPlay track); Send home (NowPlaying track)]
  end.
Proof.
  destruct p as [q c b pos]. cbn [Player.queue Player.paused].
  destruct (Queue._queue q) as [|head rest] eqn:Hq.
  - run. unfold Queue.is_empty. rewrite Hq. reflexivity.
  - destruct (get_nonempty q) as (track & q' & Hget); [congruence|].
    exists track, q'. run. unfold Queue.is_empty. rewrite Hq, Hget.
    split; reflexivity.
Qed.

(** C2, where the code departs from it.  The listener asks the queue for
    its next track only after it has found the deque not empty.  Whenever
    the deque is empty it returns at once, also when [get] would hand out a
    track (the looped track in mode [loop], the history in mode
    [loop_all]): no backend play is issued, nothing is announced and the
    session is idle. *)
Theorem track_end_returns_before_get
    (p : Player.t) (track : Track.t) (q' : Queue.t) :
  Player.current p <> None ->
  Queue._queue (Player.queue p) = [] ->
  Queue.get (Player.queue p) = inr (track, q') ->
  Music.track_end_event p = mkResult (inr tt) (Call.track_ended p) [] /\
  ~ In (Backend (BPlay track)) (trace (Music.track_end_event p)) /\
  state_of (final (Music.track_end_event p)) = Idle.
Proof.
  intros _ Hq _. pose proof (track_end_event_cases p) as H. rewrite Hq in H.
  rewrite H. repeat split. intros [].
Qed.

Lemma track_end_returns_before_get_witness :
  let p := Player.mk (Queue.mk [] QueueMode.loop (Some track_b) [track_b])
             (Some track_b) true 0 in
  state_of p = PausedState /\
  Queue.get (Player.queue p) = inr (track_b, Player.queue p) /\
  trace (Music.track_end_event p) = [] /\
  state_of (final (Music.track_end_event p)) = Idle.
Proof.
  cbn zeta.
  destruct (track_end_returns_before_get
              (Player.mk (Queue.mk [] QueueMode.loop (Some track_b) [track_b])
                 (Some track_b) true 0)
              track_b (Queue.mk [] QueueMode.loop (Some track_b) [track_b]))
    as (Hrun & _ & Hidle); [discriminate | reflexivity | reflexivity |].
  split; [reflexivity|]. split; [reflexivity|].
  split; [rewrite Hrun; reflexivity | exact Hidle].
Defined.

(** ** play *)



(** Scenario A of the specification: [play] on a fresh session plays the
    track found, from position 0. *)
Lemma play_fresh_session :
  let r := Music.play "song A" [track_a] fresh_player in
  trace r = [Backend (BPlay track_a); Send ctx (NowPlayingFirst track_a 1)] /\
  Player.current (final r) = Some track_a /\
  Player.position (final r) = 0 /\
  Queue._queue (Player.queue (final r)) = [] /\
  state_of (final r) = Playing.
Proof.
  repeat split.
Qed.

(** ** seek *)

(** C5.  [seek] on an idle session is answered with "no track is playing".
    On a session with a current track the offset [seconds * 1000] is refused
    as an invalid seek position exactly when it is negative or larger than
    the length of the track, and a refusal changes nothing; any other offset
    is sent to the backend as a seek and becomes the position. *)
Theorem seek_contract (p : Player.t) (seconds : Z) :
  let offset := seconds * 1000 in
  match Player.current p with
  | None => Music.seek seconds p = mkResult (inr tt) p [Send ctx NoTrackPlaying]
  | Some track =>
      ((exists d, In (Send ctx (InvalidSeekPosition d)) (trace (Music.seek seconds p)))
         <-> (offset < 0 \/ offset > Track.length track)) /\
      (offset < 0 \/ offset > Track.length track ->
         Music.seek seconds p =
           mkResult (inr tt) p
             [Send ctx (InvalidSeekPosition (Track.length track / 1000))]) /\
      (0 <= offset <= Track.length track ->
         outcome (Music.seek seconds p) = inr tt /\
         trace (Music.seek seconds p) =
           [Backend (BSeek offset); Send ctx (Seeked (seconds / 60) (seconds mod 60))] /\
         final (Music.seek seconds p) = Player.with_position offset p)
  end.
Proof.
  destruct p as [q c b pos]. cbn zeta. cbn [Player.current].
  destruct c as [track|]; [|reflexivity].
  run. cbn [negb].
  destruct (seconds <? 0) eqn:Hneg;
    [apply Z.ltb_lt in Hneg | apply Z.ltb_ge in Hneg];
    destruct (seconds * 1000 >? Track.length track) eqn:Hbig;
    rewrite Z.gtb_ltb in Hbig;
    [apply Z.ltb_lt in Hbig | apply Z.ltb_ge in Hbig
    | apply Z.ltb_lt in Hbig | apply Z.ltb_ge in Hbig];
    cbn; repeat split; intros; try lia; eauto;
    repeat match goal with
           | H : exists _, _ |- _ => destruct H
           | H : _ \/ _ |- _ => destruct H
           | H : False |- _ => destruct H
           | H : _ = _ |- _ => discriminate H
           end; try lia.
Qed.

(** ** remove *)

(** Deleting the item at a valid index splits the deque around it. *)
Lemma del_list_split (l : list Track.t) (i : nat) :
  (i < List.length l)%nat ->
  exists before track after,
    l = before ++ track :: after /\
    List.length before = i /\
    nth_error l i = Some track /\
    Queue.del_list i l = Some (before ++ after).
Proof.
  revert i. induction l as [|x l IH]; intros i Hi; simpl in Hi; [lia|].
  destruct i as [|j].
  - exists [], x, l. repeat split.
  - destruct (IH j) as (before & track & after & Hl & Hlen & Hnth & Hdel); [lia|].
    exists (x :: before), track, after. simpl.
    rewrite Hdel, Hlen. subst l. repeat split. exact Hnth.
Qed.

(** After the deletion the items in front keep their index and every later
    item has moved down by one. *)
Lemma nth_error_after_del (before after : list Track.t) (track : Track.t) (i : nat) :
  nth_error (before ++ after) i =
    if (i <? List.length before)%nat
    then nth_error (before ++ track :: after) i
    else nth_error (before ++ track :: after) (S i).
Proof.
  destruct (i <? List.length before)%nat eqn:Hi.
  - apply Nat.ltb_lt in Hi. now rewrite !nth_error_app1 by exact Hi.
  - apply Nat.ltb_ge in Hi. rewrite !nth_error_app2 by lia.
    replace (S i - List.length before)%nat with (S (i - List.length before)) by lia.
    reflexivity.
Qed.

(** C6, as the code has it.  [remove] addresses the queue from 1.  On an
    empty queue every position is answered with "queue is empty"; on a queue
    that holds something a position is answered with "invalid position"
    exactly when it is below 1 or above the size; either refusal leaves the
    player as it was.  Any other position takes the addressed track out and
    names it in the reply: the tracks in front stay where they are and every
    later track moves down by one. *)
Theorem remove_contract (p : Player.t) (position : Z) :
  let n := Queue.len (Player.queue p) in
  let queued := Queue._queue (Player.queue p) in
  (n = 0 -> Music.remove position p = mkResult (inr tt) p [Send ctx QueueIsEmpty]) /\
  ((exists k, In (Send ctx (InvalidPosition k)) (trace (Music.remove position p)))
     <-> (n <> 0 /\ (position < 1 \/ position > n))) /\
  (n <> 0 -> (position < 1 \/ position > n) ->
     Music.remove position p = mkResult (inr tt) p [Send ctx (InvalidPosition n)]) /\
  (1 <= position <= n ->
     exists before track after,
       queued = before ++ track :: after /\
       Z.of_nat (List.length before) = position - 1 /\
       Music.remove position p =
         mkResult (inr tt)
           (Player.with_queue (Queue.with_queue (before ++ after) (Player.queue p)) p)
           [Send ctx (RemovedFromQueue track)] /\
       forall i : nat,
         nth_error (before ++ after) i =
           if (i <? List.length before)%nat then nth_error queued i
           else nth_error queued (S i)).
Proof.
  destruct p as [q c b pos]. cbn zeta. cbn [Player.queue].
  assert (Hn : 0 <= Queue.len q) by (unfold Queue.len; lia).
  run.
  destruct (Queue.len q =? 0) eqn:Hz;
    [apply Z.eqb_eq in Hz | apply Z.eqb_neq in Hz].
  { cbn. repeat split; intros; try lia;
      repeat match goal with
             | H : exists _, _ |- _ => destruct H
             | H : _ /\ _ |- _ => destruct H
             | H : _ \/ _ |- _ => destruct H
             | H : False |- _ => destruct H
             | H : _ = _ |- _ => discriminate H
             end; try lia. }
  destruct ((position <? 1) || (position >? Queue.len q)) eqn:Hbad.
  { apply orb_true_iff in Hbad. rewrite Z.ltb_lt, Z.gtb_ltb, Z.ltb_lt in Hbad.
    cbn. repeat split; intros; try lia; eauto. }
  apply orb_false_iff in Hbad. rewrite Z.ltb_ge, Z.gtb_ltb, Z.ltb_ge in Hbad.
  destruct (del_list_split (Queue._queue q) (Z.to_nat (position - 1)))
    as (before & track & after & Hl & Hlen & Hnth & Hdel).
  { unfold Queue.len in Hbad, Hz. lia. }
  unfold Queue.item, Queue.del. rewrite Hnth, Hdel. cbn.
  repeat split; intros; try lia.
  - repeat match goal with
           | H : exists _, _ |- _ => destruct H
           | H : _ \/ _ |- _ => destruct H
           | H : False |- _ => destruct H
           | H : _ = _ |- _ => discriminate H
           end.
  - exists before, track, after. repeat split; try assumption; try lia.
    intros i. rewrite Hl. apply nth_error_after_del.
Qed.

(** The claim as written does not hold on an empty queue: position 1 is
    above the size, yet the reply is "queue is empty", not "invalid
    position". *)
Lemma remove_on_empty_queue_is_not_invalid_position :
  (1 < 1 \/ 1 > Queue.len (Player.queue fresh_player)) /\
  trace (Music.remove 1 fresh_player) = [Send ctx QueueIsEmpty] /\
  ~ (exists k, In (Send ctx (InvalidPosition k)) (trace (Music.remove 1 fresh_player))).
Proof.
  split; [right; reflexivity|]. split; [reflexivity|].
  intros [k [H|[]]]. discriminate H.
Qed.

(** Scenario D of the specification: three tracks queued, the second
    removed; the first and the third are then at positions 1 and 2. *)
Lemma remove_second_of_three (playing : Track.t) :
  let r := Music.remove 2 (playing_player playing [track_a; track_b; track_c]) in
  trace r = [Send ctx (RemovedFromQueue track_b)] /\
  Queue._queue (Player.queue (final r)) = [track_a; track_c].
Proof.
  split; reflexivity.
Qed.

(** ** The capacity of the queue *)

(** C1, what the code does.  Neither [play] nor [playtop] looks at the size
    of the queue or at [MAX_QUEUE_SIZE]: on a session with a current track,
    whatever the size of its queue, [play] puts the track at the end and
    [playtop] puts it in front, and both reply with a success. *)
Theorem enqueue_ignores_max_queue_size
    (p : Player.t) (query : string) (track : Track.t) (rest : list Track.t) :
  Player.is_playing p = true ->
  (Music.play query (track :: rest) p =
     mkResult (inr tt)
       (Player.with_queue (Queue.put_wait track (Player.queue p)) p)
       [Send ctx (AddedToQueue track (Queue.len (Player.queue p) + 1))] /\
   Queue._queue (Player.queue (final (Music.play query (track :: rest) p))) =
     Queue._queue (Player.queue p) ++ [track]) /\
  (Music.playtop query (track :: rest) p =
     mkResult (inr tt)
       (Player.with_queue (Queue.appendleft track (Player.queue p)) p)
       [Send ctx (AddedToTop track 1)] /\
   Queue._queue (Player.queue (final (Music.playtop query (track :: rest) p))) =
     track :: Queue._queue (Player.queue p)).
Proof.
  intros Hplaying.
  destruct p as [q c b pos]. cbn in Hplaying.
  destruct c as [cur|]; [|discriminate].
  split; split; try reflexivity.
  run. cbn [negb]. unfold Queue.len, Queue.put_wait, Queue.with_queue.
  cbn [Queue._queue]. rewrite length_app. cbn [List.length].
  replace (Z.of_nat (List.length (Queue._queue q) + 1)) with
    (Z.of_nat (List.length (Queue._queue q)) + 1) by lia.
  reflexivity.
Qed.

(** A queue that already holds [MAX_QUEUE_SIZE] tracks grows by both
    commands. *)
Lemma enqueue_ignores_max_queue_size_witness :
  Queue.len (Player.queue full_player) = Config.MAX_QUEUE_SIZE /\
  Queue.len (Player.queue (final (Music.play "song C" [track_c] full_player))) =
    Config.MAX_QUEUE_SIZE + 1 /\
  Queue.len (Player.queue (final (Music.playtop "song C" [track_c] full_player))) =
    Config.MAX_QUEUE_SIZE + 1 /\
  trace (Music.playtop "song C" [track_c] full_player) = [Send ctx (AddedToTop track_c 1)].
Proof.
  destruct (enqueue_ignores_max_queue_size full_player "song C" track_c [] eq_refl)
    as [[Hplay Hq1] [Htop Hq2]].
  split; [vm_compute; reflexivity|].
  unfold Queue.len. rewrite Hq1, Hq2, Htop.
  repeat split; vm_compute; reflexivity.
Defined.

(** ** Looping the current track *)

(** With something queued, a track-ended event in mode [loop] replays the
    track handed out last and the queue keeps its tracks. *)
Lemma track_end_replays_under_loop (p : Player.t) (track : Track.t) :
  Queue.mode (Player.queue p) = QueueMode.loop ->
  Queue._loaded (Player.queue p) = Some track ->
  Queue._queue (Player.queue p) <> [] ->
  trace (Music.track_end_event p) =
    [Backend (BPlay track); Send home (NowPlaying track)] /\
  Queue._queue (Player.queue (final (Music.track_end_event p))) =
    Queue._queue (Player.queue p).
Proof.
  destruct p as [q c b pos]. cbn [Player.queue]. intros Hm Hl Hq.
  run. unfold Queue.is_empty.
  destruct (Queue._queue q) as [|head tail] eqn:E; [congruence|].
  rewrite (get_loop q track Hm Hl). cbn. rewrite E. split; reflexivity.
Qed.

(** C4, where the code departs from it.  [track_a] was played from an empty
    queue and [loop track] was switched on: the queue is in mode [loop] and
    remembers [track_a] as the track handed out last.  When that track ends
    the listener finds the queue empty and returns: no backend play, no
    embed, and the session is idle; the track is not played again. *)
Theorem loop_track_not_replayed_on_empty_queue :
  Queue.mode (Player.queue looping_player) = QueueMode.loop /\
  Queue._loaded (Player.queue looping_player) = Some track_a /\
  Player.current looping_player = Some track_a /\
  Queue._queue (Player.queue looping_player) = [] /\
  Queue.get (Player.queue looping_player) = inr (track_a, Player.queue looping_player) /\
  Music.track_end_event looping_player =
    mkResult (inr tt) (Call.track_ended looping_player) [] /\
  state_of (final (Music.track_end_event looping_player)) = Idle.
Proof.
  repeat split.
Qed.

(** ** rewind and forward *)

(** For a number of seconds that is not negative, on a session whose
    position lies within the current track, both relative seeks end within
    the track and are sent to the backend. *)
Lemma relative_seek_within_track
    (p : Player.t) (track : Track.t) (seconds : Z) :
  Player.current p = Some track ->
  0 <= Player.position p <= Track.length track ->
  0 <= seconds ->
  (outcome (Music.rewind seconds p) = inr tt /\
   trace (Music.rewind seconds p) =
     [Backend (BSeek (Player.position (final (Music.rewind seconds p))));
      Send ctx (Rewound seconds)] /\
   0 <= Player.position (final (Music.rewind seconds p)) <= Track.length track) /\
  (outcome (Music.forward seconds p) = inr tt /\
   trace (Music.forward seconds p) =
     [Backend (BSeek (Player.position (final (Music.forward seconds p))));
      Send ctx (Forwarded seconds)] /\
   0 <= Player.position (final (Music.forward seconds p)) <= Track.length track).
Proof.
  destruct p as [q c b pos]. cbn [Player.current Player.position].
  intros -> Hpos Hsec. run. cbn. repeat split; lia.
Qed.

(** C7, where the code departs from it.  [rewind] only clamps at 0 and
    [forward] only clamps at the length of the track.  On [track_a]
    (200000 ms) at position 0, [rewind -300] seeks to 300000 ms, beyond the
    end of the track, and [forward -10] seeks to -10000 ms, before its
    start. *)
Theorem relative_seek_leaves_track_on_negative_seconds :
  let p := playing_player track_a [] in
  trace (Music.rewind (-300) p) = [Backend (BSeek 300000); Send ctx (Rewound (-300))] /\
  Player.position (final (Music.rewind (-300) p)) = 300000 /\
  300000 > Track.length track_a /\
  trace (Music.forward (-10) p) = [Backend (BSeek (-10000)); Send ctx (Forwarded (-10))] /\
  Player.position (final (Music.forward (-10) p)) = -10000 /\
  -10000 < 0.
Proof.
  repeat split.
Qed.

(** ** Rounding *)

Lemma pow2_pos (e : Z) : (0 < 2 ^ e)%Q.
Proof. apply Qpower_0_lt. reflexivity. Qed.

Lemma pow2_inject (a : Z) : 0 <= a -> (2 ^ a == inject_Z (2 ^ a))%Q.
Proof. intros H. symmetry. apply (Zpower_Qpower 2 a H). Qed.

(** The exponent found for a positive number is not too large. *)
Lemma ilog2_le (x : Q) : (0 < x)%Q -> (2 ^ Binary64.ilog2 x <= x)%Q.
Proof.
  intros Hx. unfold Binary64.ilog2.
  assert (Habs : (Qabs x == x)%Q) by (apply Qabs_pos; apply Qlt_le_weak; exact Hx).
  destruct (Qle_bool _ _) eqn:E.
  - apply Qle_bool_iff in E. rewrite Habs in E. exact E.
  - clear E. destruct x as [n d]. cbn [Qnum Qden].
    assert (Hn : 0 < n) by (unfold Qlt in Hx; cbn in Hx; lia).
    rewrite Z.abs_eq by lia.
    set (a := Z.log2 n). set (b := Z.log2 (Zpos d)).
    assert (Ha : 2 ^ a <= n) by (apply Z.log2_spec; exact Hn).
    assert (Hb : Zpos d < 2 ^ (b + 1)).
    { unfold b. replace (Z.log2 (Z.pos d) + 1) with (Z.succ (Z.log2 (Z.pos d))) by lia.
      apply Z.log2_spec. lia. }
    assert (Ha0 : 0 <= a) by apply Z.log2_nonneg.
    assert (Hb0 : 0 <= b) by apply Z.log2_nonneg.
    replace (a - b - 1) with (a - (b + 1)) by lia.
    rewrite Qpower_minus by discriminate.
    rewrite (pow2_inject a Ha0), (pow2_inject (b + 1)) by lia.
    rewrite (Qmake_Qdiv n d).
    assert (HB : 0 < 2 ^ (b + 1)) by (apply Z.pow_pos_nonneg; lia).
    apply Qle_shift_div_r;
      [change 0%Q with (inject_Z 0); rewrite <- Zlt_Qlt; exact HB|].
    unfold Qdiv. rewrite <- Qmult_assoc, (Qmult_comm (/ _)), Qmult_assoc.
    apply Qle_shift_div_l;
      [change 0%Q with (inject_Z 0); rewrite <- Zlt_Qlt; reflexivity|].
    rewrite <- !inject_Z_mult, <- Zle_Qle. nia.
Qed.

(** ... and it is the largest such exponent. *)
Lemma ilog2_lt (x : Q) : (0 < x)%Q -> (x < 2 ^ (Binary64.ilog2 x + 1))%Q.
Proof.
  intros Hx. unfold Binary64.ilog2.
  assert (Habs : (Qabs x == x)%Q) by (apply Qabs_pos; apply Qlt_le_weak; exact Hx).
  destruct (Qle_bool _ _) eqn:E.
  - clear E. destruct x as [n d]. cbn [Qnum Qden].
    assert (Hn : 0 < n) by (unfold Qlt in Hx; cbn in Hx; lia).
    rewrite Z.abs_eq by lia.
    set (a := Z.log2 n). set (b := Z.log2 (Zpos d)).
    assert (Ha : n < 2 ^ (a + 1)).
    { unfold a. replace (Z.log2 n + 1) with (Z.succ (Z.log2 n)) by lia.
      apply Z.log2_spec. exact Hn. }
    assert (Hb : 2 ^ b <= Zpos d) by (apply Z.log2_spec; lia).
    assert (Ha0 : 0 <= a) by apply Z.log2_nonneg.
    assert (Hb0 : 0 <= b) by apply Z.log2_nonneg.
    replace (a - b + 1) with (a + 1 - b) by lia.
    rewrite Qpower_minus by discriminate.
    rewrite (pow2_inject (a + 1)), (pow2_inject b Hb0) by lia.
    rewrite (Qmake_Qdiv n d).
    assert (HB : 0 < 2 ^ b) by (apply Z.pow_pos_nonneg; lia).
    apply Qlt_shift_div_l;
      [change 0%Q with (inject_Z 0); rewrite <- Zlt_Qlt; exact HB|].
    unfold Qdiv. rewrite <- Qmult_assoc, (Qmult_comm (/ _)), Qmult_assoc.
    apply Qlt_shift_div_r;
      [change 0%Q with (inject_Z 0); rewrite <- Zlt_Qlt; reflexivity|].
    rewrite <- !inject_Z_mult, <- Zlt_Qlt. nia.
  - replace (Z.log2 (Z.abs (Qnum x)) - Z.log2 (Z.pos (Qden x)) - 1 + 1)
      with (Z.log2 (Z.abs (Qnum x)) - Z.log2 (Z.pos (Qden x))) by lia.
    apply Qnot_le_lt. intros H.
    assert (H' : (2 ^ (Z.log2 (Z.abs (Qnum x)) - Z.log2 (Z.pos (Qden x))) <= Qabs x)%Q)
      by (apply Qle_trans with x; [exact H | apply Qle_Qabs]).
    apply Qle_bool_iff in H'. congruence.
Qed.

(** The nearest integer is at most a half away. *)
Lemma rne_near (w : Q) :
  (w - (1 # 2) <= inject_Z (Binary64.rne w) <= w + (1 # 2))%Q.
Proof.
  unfold Binary64.rne.
  pose proof (Qfloor_le w) as Hlo. pose proof (Qlt_floor w) as Hhi.
  rewrite inject_Z_plus in Hhi. change (inject_Z 1) with 1%Q in Hhi.
  set (f := Qfloor w) in *.
  destruct (Qcompare_spec (w - inject_Z f) (1 # 2)) as [H|H|H].
  - destruct (Z.even f); [|rewrite inject_Z_plus; change (inject_Z 1) with 1%Q];
      split; lra.
  - split; lra.
  - rewrite inject_Z_plus. change (inject_Z 1) with 1%Q. split; lra.
Qed.

(** Rounding a positive number moves it by at most one part in 2^53. *)
Lemma round_near (x : Q) :
  (0 < x)%Q ->
  (x * (1 - (1 # 9007199254740992)) <= Binary64.round x
   <= x * (1 + (1 # 9007199254740992)))%Q.
Proof.
  intros Hx. unfold Binary64.round, Binary64.round_reduced.
  pose proof (Qred_correct x) as Hred.
  set (y := Qred x) in *.
  assert (Hy : (0 < y)%Q) by (rewrite Hred; exact Hx).
  destruct (Qeq_bool y 0) eqn:E.
  { apply Qeq_bool_iff in E. rewrite E in Hy. discriminate. }
  clear E. rewrite Qred_correct.
  pose proof (ilog2_le y Hy) as Hlog.
  set (e := Binary64.ilog2 y) in *.
  pose proof (rne_near (y * 2 ^ (52 - e))) as Hm.
  set (m := inject_Z (Binary64.rne (y * 2 ^ (52 - e)))) in *.
  assert (HPN : (2 ^ (52 - e) * 2 ^ (- (52 - e)) == 1)%Q).
  { rewrite <- Qpower_plus by discriminate.
    replace (52 - e + - (52 - e)) with 0 by lia. reflexivity. }
  assert (HN : (2 ^ (- (52 - e)) == 2 ^ e * (1 # 4503599627370496))%Q).
  { replace (- (52 - e)) with (e + -52) by lia.
    rewrite Qpower_plus by discriminate. reflexivity. }
  pose proof (pow2_pos (- (52 - e))) as HNpos.
  pose proof (pow2_pos e) as HEpos.
  set (P := (2 ^ (52 - e))%Q) in *. set (N := (2 ^ (- (52 - e)))%Q) in *.
  set (E := (2 ^ e)%Q) in *. rewrite <- Hred.
  assert (H1 : ((y * P - (1 # 2)) * N <= m * N)%Q)
    by (apply Qmult_le_compat_r; [apply Hm | apply Qlt_le_weak; exact HNpos]).
  assert (H2 : (m * N <= (y * P + (1 # 2)) * N)%Q)
    by (apply Qmult_le_compat_r; [apply Hm | apply Qlt_le_weak; exact HNpos]).
  assert (H3 : ((y * P - (1 # 2)) * N == y - (1 # 2) * N)%Q).
  { transitivity (y * (P * N) - (1 # 2) * N)%Q; [ring | rewrite HPN; ring]. }
  assert (H4 : ((y * P + (1 # 2)) * N == y + (1 # 2) * N)%Q).
  { transitivity (y * (P * N) + (1 # 2) * N)%Q; [ring | rewrite HPN; ring]. }
  rewrite H3 in H1. rewrite H4 in H2.
  split; lra.
Qed.

Lemma round_twenty : Binary64.round (inject_Z 20) = inject_Z 20.
Proof. vm_compute. reflexivity. Qed.

(** Rounding does not depend on how the number is written. *)
Lemma round_Qeq (x y : Q) : (x == y)%Q -> Binary64.round x = Binary64.round y.
Proof. intros H. unfold Binary64.round. now rewrite (Qred_complete x y H). Qed.

Lemma int_at_least (z : Q) (k : Z) :
  (inject_Z k <= z)%Q -> 0 <= k -> k <= Music.int z.
Proof.
  intros Hlo Hk. unfold Music.int.
  assert (H0 : (0 <= z)%Q).
  { apply Qle_trans with (inject_Z k); [|exact Hlo].
    change 0%Q with (inject_Z 0). rewrite <- Zle_Qle. exact Hk. }
  apply Qle_bool_iff in H0. rewrite H0.
  rewrite <- (Qfloor_Z k). apply Qfloor_resp_le. exact Hlo.
Qed.

Lemma int_between (z : Q) (k : Z) :
  (inject_Z k <= z)%Q -> (z < inject_Z k + 1)%Q -> 0 <= k -> Music.int z = k.
Proof.
  intros Hlo Hhi Hk.
  pose proof (int_at_least z k Hlo Hk) as Hge. revert Hge. unfold Music.int.
  assert (H0 : (0 <= z)%Q).
  { apply Qle_trans with (inject_Z k); [|exact Hlo].
    change 0%Q with (inject_Z 0). rewrite <- Zle_Qle. exact Hk. }
  apply Qle_bool_iff in H0. rewrite H0. intros Hge.
  pose proof (Qfloor_le z) as H1.
  assert (Ha : (inject_Z (Qfloor z) < inject_Z (k + 1))%Q)
    by (rewrite inject_Z_plus; change (inject_Z 1) with 1%Q; lra).
  rewrite <- Zlt_Qlt in Ha. lia.
Qed.

(** When the quotient is a whole number [k] of twentieths, the product
    comes out as [k] exactly. *)
Lemma exact_twentieths (k : Z) :
  0 <= k <= 21 ->
  Music.int (Binary64.round
               (inject_Z 20 * Binary64.round (inject_Z k / inject_Z 20))%Q) = k.
Proof.
  intros H.
  assert (Hk : k = 0 \/ k = 1 \/ k = 2 \/ k = 3 \/ k = 4 \/ k = 5 \/ k = 6 \/ k = 7 \/
               k = 8 \/ k = 9 \/ k = 10 \/ k = 11 \/ k = 12 \/ k = 13 \/ k = 14 \/
               k = 15 \/ k = 16 \/ k = 17 \/ k = 18 \/ k = 19 \/ k = 20 \/ k = 21) by lia.
  repeat (destruct Hk as [-> | Hk]; [vm_compute; reflexivity|]).
  subst k. vm_compute. reflexivity.
Qed.

Lemma quotient_in_twentieths (c t k : Z) :
  0 < t -> 20 * c = t * k ->
  (inject_Z c / inject_Z t == inject_Z k / inject_Z 20)%Q.
Proof.
  intros Ht Heq.
  assert (HT : (0 < inject_Z t)%Q)
    by (change 0%Q with (inject_Z 0); rewrite <- Zlt_Qlt; lia).
  assert (Hne : ~ (inject_Z t == 0)%Q) by lra.
  assert (HQ : (inject_Z 20 * inject_Z c == inject_Z t * inject_Z k)%Q)
    by (rewrite <- !inject_Z_mult, Heq; reflexivity).
  apply Qmult_inj_r with (inject_Z 20 * inject_Z t)%Q.
  - intros H. apply Hne. apply (Qmult_inj_l _ _ (inject_Z 20)); [discriminate|].
    rewrite H. reflexivity.
  - transitivity (inject_Z 20 * inject_Z c)%Q; [field; exact Hne|].
    rewrite HQ. field.
Qed.

(** The quotient lies a [1 / t] away from the next twentieth on each side
    when [20 * c] is strictly between [k * t] and [(k + 1) * t]. *)
Lemma quotient_between (c t k : Z) :
  0 < t ->
  k * t + 1 <= 20 * c ->
  (inject_Z k + 1 / inject_Z t <= 20 * (inject_Z c / inject_Z t))%Q.
Proof.
  intros Ht H.
  assert (HT : (0 < inject_Z t)%Q)
    by (change 0%Q with (inject_Z 0); rewrite <- Zlt_Qlt; lia).
  assert (Hne : ~ (inject_Z t == 0)%Q) by lra.
  rewrite Zle_Qle in H. rewrite inject_Z_plus, !inject_Z_mult in H.
  change (inject_Z 1) with 1%Q in H. change (inject_Z 20) with 20%Q in H.
  apply Qmult_le_r with (inject_Z t); [exact HT|].
  assert (E1 : ((inject_Z k + 1 / inject_Z t) * inject_Z t
                == inject_Z k * inject_Z t + 1)%Q) by (field; exact Hne).
  assert (E2 : (20 * (inject_Z c / inject_Z t) * inject_Z t == 20 * inject_Z c)%Q)
    by (field; exact Hne).
  rewrite E1, E2. exact H.
Qed.

Lemma quotient_below (c t k : Z) :
  0 < t ->
  20 * c <= (k + 1) * t - 1 ->
  (20 * (inject_Z c / inject_Z t) <= inject_Z k + 1 - 1 / inject_Z t)%Q.
Proof.
  intros Ht H.
  assert (HT : (0 < inject_Z t)%Q)
    by (change 0%Q with (inject_Z 0); rewrite <- Zlt_Qlt; lia).
  assert (Hne : ~ (inject_Z t == 0)%Q) by lra.
  rewrite Zle_Qle in H.
  unfold Z.sub in H. rewrite inject_Z_plus, !inject_Z_mult, inject_Z_plus in H.
  change (inject_Z (-1)) with (-1)%Q in H.
  change (inject_Z 1) with 1%Q in H. change (inject_Z 20) with 20%Q in H.
  apply Qmult_le_r with (inject_Z t); [exact HT|].
  assert (E1 : ((inject_Z k + 1 - 1 / inject_Z t) * inject_Z t
                == (inject_Z k + 1) * inject_Z t + -1)%Q) by (field; exact Hne).
  assert (E2 : (20 * (inject_Z c / inject_Z t) * inject_Z t == 20 * inject_Z c)%Q)
    by (field; exact Hne).
  rewrite E1, E2. exact H.
Qed.

Lemma reciprocal_bound (t : Z) :
  0 < t <= 2 ^ 47 -> ((1 # 140737488355328) <= 1 / inject_Z t)%Q.
Proof.
  intros Ht.
  assert (HT : (0 < inject_Z t)%Q)
    by (change 0%Q with (inject_Z 0); rewrite <- Zlt_Qlt; lia).
  apply Qle_shift_div_l; [exact HT|].
  assert (H : (inject_Z t <= inject_Z (2 ^ 47))%Q) by (rewrite <- Zle_Qle; lia).
  change (inject_Z (2 ^ 47)) with (140737488355328 # 1)%Q in H. lra.
Qed.

(** ** The progress bar *)

Lemma filled_zero_total (current bar_length : Z) :
  Music.filled current 0 bar_length = 0.
Proof.
  unfold Music.filled. cbn [Z.eqb]. lia.
Qed.

(** Within the track, and for tracks of up to 2^47 ms, the rounding of the
    two float operations never reaches the next whole number: the filled
    cells are the floor of [20 * current / total]. *)
Lemma filled_floor (current total : Z) :
  0 <= current <= total -> 0 < total <= 2 ^ 47 ->
  Music.filled current total 20 = (20 * current) / total.
Proof.
  intros Hc Ht. unfold Music.filled.
  destruct (total =? 0) eqn:E; [apply Z.eqb_eq in E; lia|]. clear E.
  rewrite round_twenty.
  set (k := (20 * current) / total).
  pose proof (Z.div_mod (20 * current) total ltac:(lia)) as Hdm.
  pose proof (Z.mod_pos_bound (20 * current) total ltac:(lia)) as Hmod.
  fold k in Hdm.
  assert (Hk : 0 <= k <= 20).
  { split; [apply Z.div_pos; lia|]. apply Z.div_le_upper_bound; lia. }
  destruct (Z.eq_dec ((20 * current) mod total) 0) as [Hex|Hnex].
  - rewrite (round_Qeq (inject_Z current / inject_Z total) (inject_Z k / inject_Z 20)).
    + apply exact_twentieths. lia.
    + apply quotient_in_twentieths; lia.
  - assert (Hk19 : k <= 19).
    { destruct (Z.eq_dec k 20) as [H20|]; [|lia]. rewrite H20 in Hdm. lia. }
    pose proof (reciprocal_bound total Ht) as Hr.
    pose proof (quotient_between current total k ltac:(lia) ltac:(lia)) as Hlo.
    pose proof (quotient_below current total k ltac:(lia) ltac:(lia)) as Hhi.
    set (q := (inject_Z current / inject_Z total)%Q) in *.
    set (r := (1 / inject_Z total)%Q) in *.
    assert (HK : (0 <= inject_Z k <= 19)%Q).
    { split; [change 0%Q with (inject_Z 0) | change 19%Q with (inject_Z 19)];
        rewrite <- Zle_Qle; lia. }
    assert (Hq : (0 < q)%Q) by lra.
    pose proof (round_near q Hq) as Hx.
    set (x := Binary64.round q) in *.
    change (inject_Z 20) with 20%Q.
    assert (Hy : (0 < 20 * x)%Q) by lra.
    pose proof (round_near (20 * x) Hy) as Hz.
    set (z := Binary64.round (20 * x)) in *.
    apply int_between; [lra | lra | lia].
Qed.

(** Past the end of a track of up to 2^47 ms at least 20 cells are filled,
    and at least 21 from a twentieth past the end on. *)
Lemma filled_past_the_end (current total : Z) :
  0 < total < current -> total <= 2 ^ 47 ->
  20 <= Music.filled current total 20 /\
  (21 * total <= 20 * current -> 21 <= Music.filled current total 20).
Proof.
  intros Hc Ht. unfold Music.filled.
  destruct (total =? 0) eqn:E; [apply Z.eqb_eq in E; lia|]. clear E.
  rewrite round_twenty.
  pose proof (reciprocal_bound total ltac:(lia)) as Hr.
  pose proof (quotient_between current total 20 ltac:(lia) ltac:(lia)) as Hlo.
  set (q := (inject_Z current / inject_Z total)%Q) in *.
  set (r := (1 / inject_Z total)%Q) in *.
  change (inject_Z 20) with 20%Q in *.
  assert (Hq : (0 < q)%Q) by lra.
  pose proof (round_near q Hq) as Hx.
  assert (Hy : (0 < 20 * Binary64.round q)%Q) by lra.
  pose proof (round_near (20 * Binary64.round q) Hy) as Hz.
  split.
  - apply int_at_least; [change (inject_Z 20) with 20%Q; lra | lia].
  - intros H21. destruct (Z.eq_dec (20 * current) (total * 21)) as [Hex|Hnex].
    + unfold q. rewrite (round_Qeq _ _ (quotient_in_twentieths current total 21
                                          ltac:(lia) Hex)).
      change 20%Q with (inject_Z 20). rewrite exact_twentieths; lia.
    + pose proof (quotient_between current total 21 ltac:(lia) ltac:(lia)) as Hlo'.
      fold q r in Hlo'. change (inject_Z 21) with 21%Q in Hlo'.
      apply int_at_least; [change (inject_Z 21) with 21%Q; lra | lia].
Qed.

(** C8, as the code has it.  The bar of [now] is [_create_progress_bar] at
    the default width of 20.  When the length of the track is 0 no division
    takes place and no cell is filled, whatever the position.  Otherwise
    the count is [int(20 * (position / length))] in floating point; for a
    position within a track of up to 2^47 ms this is the floor of
    [20 * position / length], and the bar shows that many filled cells. *)
Theorem progress_bar_filled_cells (p : Player.t) (track : Track.t) :
  Player.current p = Some track ->
  0 <= Player.position p <= Track.length track ->
  Track.length track <= 2 ^ 47 ->
  let elapsed := Player.position p in
  let duration := Track.length track in
  let cells := if duration =? 0 then 0 else (20 * elapsed) / duration in
  Music.bar_length_default = 20 /\
  (forall position, Music.filled position 0 Music.bar_length_default = 0) /\
  Music.filled elapsed duration Music.bar_length_default = cells /\
  0 <= cells /\
  trace (Music.now p) =
    [Send ctx (NowPlayingStatus track
                 (Music._create_progress_bar elapsed duration Music.bar_length_default)
                 (Queue.len (Player.queue p) + 1))] /\
  count_occ bool_dec
    (bar (Music._create_progress_bar elapsed duration Music.bar_length_default)) true =
    Z.to_nat cells.
Proof.
  destruct p as [q c b pos]. cbn [Player.current Player.position Player.queue].
  intros -> Hpos Hlen. cbn zeta.
  assert (Hfilled : Music.filled pos (Track.length track) Music.bar_length_default =
                    if Track.length track =? 0 then 0
                    else (20 * pos) / Track.length track).
  { destruct (Track.length track =? 0) eqn:E.
    - apply Z.eqb_eq in E. rewrite E. apply filled_zero_total.
    - apply Z.eqb_neq in E. apply filled_floor; lia. }
  split; [reflexivity|]. split; [intros; apply filled_zero_total|].
  split; [exact Hfilled|]. split.
  { destruct (Track.length track =? 0) eqn:E; [lia|].
    apply Z.eqb_neq in E. apply Z.div_pos; lia. }
  split; [reflexivity|].
  unfold Music._create_progress_bar. cbn [bar]. rewrite Hfilled.
  rewrite count_occ_app, count_occ_repeat_eq by reflexivity.
  rewrite count_occ_repeat_neq by discriminate. lia.
Qed.

Lemma progress_bar_filled_cells_witness :
  Music.filled 50000 200000 20 = 5 /\
  count_occ bool_dec (bar (Music._create_progress_bar 50000 200000 20)) true = 5%nat.
Proof.
  destruct (progress_bar_filled_cells
              (Player.mk Queue.empty (Some track_a) false 50000) track_a eq_refl)
    as (_ & _ & Hfilled & _ & _ & Hbar); [cbn; lia | cbn; lia |].
  split; [exact Hfilled | exact Hbar].
Defined.

(** The claim as written does not hold for every position and length: on
    a track of 500774600001319 ms at position 475735870001253 the floor of
    [20 * position / length] is 18, and the two roundings fill 19 cells. *)
Lemma progress_bar_rounding_fills_one_cell_more :
  0 <= 475735870001253 /\ 0 <= 500774600001319 /\
  (20 * 475735870001253) / 500774600001319 = 18 /\
  Music.filled 475735870001253 500774600001319 Music.bar_length_default = 19 /\
  Music.filled 475735870001253 500774600001319 Music.bar_length_default <>
    (20 * 475735870001253) / 500774600001319.
Proof.
  split; [lia|]. split; [lia|]. split; [reflexivity|].
  split; [vm_compute; reflexivity | vm_compute; discriminate].
Qed.

(** ** The queue listing *)

Lemma enumerate_length (start : Z) (items : list Track.t) :
  List.length (Cog.enumerate start items) = List.length items.
Proof.
  revert start. induction items as [|x items IH]; intros start; simpl;
    [reflexivity | now rewrite IH].
Qed.

(** The entries of an enumeration are the items with their index counted
    from [start]. *)
Lemma in_enumerate (start i : Z) (track : Track.t) (items : list Track.t) :
  In (i, track) (Cog.enumerate start items) <->
  exists k : nat, nth_error items k = Some track /\ i = start + Z.of_nat k.
Proof.
  revert start. induction items as [|x items IH]; intros start; simpl.
  - split; [intros [] | intros (k & Hk & _); destruct k; discriminate].
  - rewrite IH. split.
    + intros [Heq | (k & Hk & Hi)].
      * inversion Heq; subst. exists 0%nat. split; [reflexivity | lia].
      * exists (S k). split; [exact Hk | lia].
    + intros (k & Hk & Hi). destruct k as [|k]; simpl in Hk.
      * left. inversion Hk; subst. f_equal. lia.
      * right. exists k. split; [exact Hk | lia].
Qed.

Lemma slice_length (start stop : Z) (items : list Track.t) :
  0 <= start <= stop ->
  Z.of_nat (List.length (Cog.slice start stop items)) =
    Z.min (stop - start) (Z.max 0 (Z.of_nat (List.length items) - start)).
Proof.
  intros H. unfold Cog.slice. rewrite length_firstn, length_skipn. lia.
Qed.

Lemma slice_nth_error (start stop : Z) (items : list Track.t) (k : nat) :
  0 <= start <= stop ->
  nth_error (Cog.slice start stop items) k =
    if Z.of_nat k <? stop - start then nth_error items (Z.to_nat start + k) else None.
Proof.
  intros H. unfold Cog.slice. rewrite nth_error_firstn, nth_error_skipn.
  destruct (Nat.ltb k (Z.to_nat (stop - start))) eqn:E1;
    destruct (Z.of_nat k <? stop - start) eqn:E2; try reflexivity.
  - apply Nat.ltb_lt in E1. apply Z.ltb_ge in E2. lia.
  - apply Nat.ltb_ge in E1. apply Z.ltb_lt in E2. lia.
Qed.

(** On a page within range the listing has at least one line, so the
    stand-in text is not used. *)
Lemma queue_page_lines (p : Player.t) (page : Z) :
  let n := Queue.len (Player.queue p) in
  let pages := (n + 10 - 1) / 10 in
  let start := (page - 1) * 10 in
  n <> 0 -> 1 <= page <= pages ->
  Cog.queue page p =
    Cog.mkOutcome p []
      (inr (Cog.QueuePage
              (Cog.Lines (Cog.enumerate (start + 1)
                            (Cog.slice start (start + 10) (Queue._queue (Player.queue p)))))
              (Player.current p) page pages n)) /\
  1 <= Z.of_nat (List.length (Cog.slice start (start + 10) (Queue._queue (Player.queue p))))
    <= 10.
Proof.
  cbn zeta. intros Hn Hpage.
  assert (Hlen : 0 <= Queue.len (Player.queue p)) by (unfold Queue.len; lia).
  assert (Hlast : ((Queue.len (Player.queue p) + 10 - 1) / 10 - 1) * 10
                  < Queue.len (Player.queue p)).
  { pose proof (Z.div_mod (Queue.len (Player.queue p) + 10 - 1) 10 ltac:(lia)).
    pose proof (Z.mod_pos_bound (Queue.len (Player.queue p) + 10 - 1) 10 ltac:(lia)).
    lia. }
  assert (Hsize : 1 <= Z.of_nat (List.length
                    (Cog.slice ((page - 1) * 10) ((page - 1) * 10 + 10)
                       (Queue._queue (Player.queue p)))) <= 10).
  { rewrite slice_length by lia. unfold Queue.len in *. lia. }
  split; [|exact Hsize].
  unfold Cog.queue, Cog.items_per_page.
  destruct (Queue.len (Player.queue p) =? 0) eqn:E0; [apply Z.eqb_eq in E0; lia|].
  destruct ((page >? (Queue.len (Player.queue p) + 10 - 1) / 10) || (page <? 1)) eqn:E1.
  { apply orb_true_iff in E1. rewrite Z.gtb_ltb, !Z.ltb_lt in E1. lia. }
  destruct (Cog.enumerate _ _) as [|e es] eqn:E2; [|reflexivity].
  apply (f_equal (@List.length _)) in E2. rewrite enumerate_length in E2.
  simpl in E2. lia.
Qed.

(** X1.  [queue] on a queue that holds something: the number of pages is
    the size divided by 10, rounded up; a page outside [1, pages] is
    refused; every page inside shows between 1 and 10 lines, 10 on every
    page but the last, and never the text "No tracks in this page".  The
    player is left as it was and nothing is sent to the node. *)
Theorem queue_pages (p : Player.t) (page : Z) :
  let n := Queue.len (Player.queue p) in
  let pages := (n + 10 - 1) / 10 in
  n <> 0 ->
  10 * (pages - 1) < n <= 10 * pages /\
  (page < 1 \/ page > pages ->
     Cog.queue page p = Cog.mkOutcome p [] (inr (Cog.InvalidPage pages))) /\
  (1 <= page <= pages ->
     exists entries,
       Cog.queue page p =
         Cog.mkOutcome p []
           (inr (Cog.QueuePage (Cog.Lines entries) (Player.current p) page pages n)) /\
       Z.of_nat (List.length entries) =
         (if page =? pages then n - 10 * (pages - 1) else 10) /\
       1 <= Z.of_nat (List.length entries) <= 10).
Proof.
  cbn zeta. intros Hn.
  assert (Hlen : 0 <= Queue.len (Player.queue p)) by (unfold Queue.len; lia).
  assert (Hpages : 10 * ((Queue.len (Player.queue p) + 10 - 1) / 10 - 1)
                   < Queue.len (Player.queue p)
                   <= 10 * ((Queue.len (Player.queue p) + 10 - 1) / 10)).
  { pose proof (Z.div_mod (Queue.len (Player.queue p) + 10 - 1) 10 ltac:(lia)).
    pose proof (Z.mod_pos_bound (Queue.len (Player.queue p) + 10 - 1) 10 ltac:(lia)).
    lia. }
  split; [exact Hpages|]. split.
  - intros Hbad. unfold Cog.queue, Cog.items_per_page.
    destruct (Queue.len (Player.queue p) =? 0) eqn:E0; [apply Z.eqb_eq in E0; lia|].
    destruct ((page >? (Queue.len (Player.queue p) + 10 - 1) / 10) || (page <? 1)) eqn:E1;
      [reflexivity|].
    apply orb_false_iff in E1. rewrite Z.gtb_ltb, !Z.ltb_ge in E1. lia.
  - intros Hpage.
    destruct (queue_page_lines p page Hn Hpage) as [Hrun Hsize].
    eexists. split; [exact Hrun|]. rewrite enumerate_length.
    split; [|exact Hsize].
    rewrite slice_length by lia. unfold Queue.len in *.
    destruct (page =? (Z.of_nat (List.length (Queue._queue (Player.queue p))) + 10 - 1) / 10)
      eqn:E; [apply Z.eqb_eq in E | apply Z.eqb_neq in E]; lia.
Qed.

Lemma queue_pages_witness :
  10 * (3 - 1) < 23 <= 10 * 3 /\
  Cog.queue 4 (playing_player track_a (repeat track_b 23)) =
    Cog.mkOutcome (playing_player track_a (repeat track_b 23)) [] (inr (Cog.InvalidPage 3)).
Proof.
  destruct (queue_pages (playing_player track_a (repeat track_b 23)) 4) as (H1 & H2 & _).
  - vm_compute. discriminate.
  - split; [exact H1 | apply H2; right; vm_compute; reflexivity].
Defined.

(** A line of the page that starts after [start] tracks carries the
    position of its track in the queue. *)
Lemma in_page_lines (items : list Track.t) (page i : Z) (track : Track.t) :
  1 <= page ->
  In (i, track)
     (Cog.enumerate ((page - 1) * 10 + 1)
        (Cog.slice ((page - 1) * 10) ((page - 1) * 10 + 10) items)) <->
  10 * (page - 1) < i <= 10 * page /\
  nth_error items (Z.to_nat (i - 1)) = Some track.
Proof.
  intros Hpage. rewrite in_enumerate. split.
  - intros (k & Hk & Hi). rewrite slice_nth_error in Hk by lia.
    destruct (Z.of_nat k <? (page - 1) * 10 + 10 - (page - 1) * 10) eqn:E;
      [apply Z.ltb_lt in E | discriminate].
    split; [lia|].
    replace (Z.to_nat (i - 1)) with (Z.to_nat ((page - 1) * 10) + k)%nat by lia.
    exact Hk.
  - intros [Hi Hnth]. exists (Z.to_nat (i - 1 - (page - 1) * 10)).
    split; [|lia]. rewrite slice_nth_error by lia.
    destruct (Z.of_nat (Z.to_nat (i - 1 - (page - 1) * 10))
              <? (page - 1) * 10 + 10 - (page - 1) * 10) eqn:E;
      [|apply Z.ltb_ge in E; lia].
    replace (Z.to_nat ((page - 1) * 10) + Z.to_nat (i - 1 - (page - 1) * 10))%nat
      with (Z.to_nat (i - 1)) by lia.
    exact Hnth.
Qed.

(** A reply that shows lines comes from a page within range, and the lines
    are the enumeration of that page. *)
Lemma queue_lines_inv (p : Player.t) (page : Z) (entries : list (Z * Track.t))
    (current : option Track.t) (page' pages total : Z) :
  Cog.reply (Cog.queue page p) =
    inr (Cog.QueuePage (Cog.Lines entries) current page' pages total) ->
  1 <= page /\
  entries =
    Cog.enumerate ((page - 1) * 10 + 1)
      (Cog.slice ((page - 1) * 10) ((page - 1) * 10 + 10) (Queue._queue (Player.queue p))).
Proof.
  unfold Cog.queue, Cog.items_per_page.
  destruct (Queue.len (Player.queue p) =? 0); [discriminate|].
  destruct ((page >? (Queue.len (Player.queue p) + 10 - 1) / 10) || (page <? 1)) eqn:E1;
    [discriminate|].
  apply orb_false_iff in E1. rewrite Z.gtb_ltb, !Z.ltb_ge in E1.
  cbn [Cog.reply]. destruct (Cog.enumerate _ _) as [|e es] eqn:E2; [discriminate|].
  intros H. inversion H; subst. split; [lia | reflexivity].
Qed.

(** X2.  The lines of a page are numbered by position in the queue: [(i,
    track)] is a line of page [page] exactly when [i] lies on that page,
    [10 * (page - 1) < i <= 10 * page], and [track] is the [i]-th track of
    the queue, counted from 1.  So every queued track is listed, on one
    page only, under its own position. *)
Theorem queue_lines_are_positions (p : Player.t) (page i : Z) (track : Track.t) :
  let n := Queue.len (Player.queue p) in
  let pages := (n + 10 - 1) / 10 in
  n <> 0 -> 1 <= page <= pages ->
  exists entries,
    Cog.reply (Cog.queue page p) =
      inr (Cog.QueuePage (Cog.Lines entries) (Player.current p) page pages n) /\
    (In (i, track) entries <->
       10 * (page - 1) < i <= 10 * page /\
       nth_error (Queue._queue (Player.queue p)) (Z.to_nat (i - 1)) = Some track).
Proof.
  cbn zeta. intros Hn Hpage.
  destruct (queue_page_lines p page Hn Hpage) as [Hrun _].
  eexists. split; [rewrite Hrun; reflexivity|].
  apply in_page_lines. lia.
Qed.

Lemma queue_lines_are_positions_witness :
  exists entries,
    Cog.reply (Cog.queue 2 (playing_player track_a (repeat track_b 11 ++ [track_c]))) =
      inr (Cog.QueuePage (Cog.Lines entries) (Some track_a) 2 2 12) /\
    In (12, track_c) entries.
Proof.
  destruct (queue_lines_are_positions
              (playing_player track_a (repeat track_b 11 ++ [track_c])) 2 12 track_c)
    as (entries & Hreply & Hin).
  - vm_compute. discriminate.
  - vm_compute. split; discriminate.
  - exists entries. split; [exact Hreply|].
    apply Hin. split; [lia | reflexivity].
Defined.

(** ** Removing by position *)

(** [remove] at the position of a track takes that track out. *)
Lemma remove_nth (p : Player.t) (position : Z) (track : Track.t) :
  1 <= position ->
  nth_error (Queue._queue (Player.queue p)) (Z.to_nat (position - 1)) = Some track ->
  exists before after,
    Queue._queue (Player.queue p) = before ++ track :: after /\
    Z.of_nat (List.length before) = position - 1 /\
    Music.remove position p =
      mkResult (inr tt)
        (Player.with_queue (Queue.with_queue (before ++ after) (Player.queue p)) p)
        [Send ctx (RemovedFromQueue track)].
Proof.
  destruct p as [q c b pos]. cbn [Player.queue]. intros Hpos Hnth.
  assert (Hlt : (Z.to_nat (position - 1) < List.length (Queue._queue q))%nat).
  { apply nth_error_Some. congruence. }
  destruct (del_list_split (Queue._queue q) (Z.to_nat (position - 1)) Hlt)
    as (before & track' & after & Hl & Hlen & Hnth' & Hdel).
  assert (track' = track) by congruence. subst track'.
  exists before, after. split; [exact Hl|]. split; [lia|].
  run. unfold Queue.len.
  destruct (Z.of_nat (List.length (Queue._queue q)) =? 0) eqn:Hz;
    [apply Z.eqb_eq in Hz; lia|].
  destruct ((position <? 1) || (position >? Z.of_nat (List.length (Queue._queue q))))
    eqn:Hbad.
  { apply orb_true_iff in Hbad. rewrite Z.ltb_lt, Z.gtb_ltb, Z.ltb_lt in Hbad. lia. }
  unfold Queue.item, Queue.del. rewrite Hnth, Hdel. reflexivity.
Qed.

(** X3.  The number in front of a track in the queue listing is the
    position [remove] takes: if [(i, track)] is a line of the page [queue]
    shows, then [remove i] completes, names [track] in its reply, sends
    nothing to the node and leaves a queue one shorter from which exactly
    that slot is gone. *)
Theorem listed_number_removes_listed_track
    (p : Player.t) (page i : Z) (track : Track.t) (entries : list (Z * Track.t))
    (current : option Track.t) (page' pages total : Z) :
  Cog.reply (Cog.queue page p) =
    inr (Cog.QueuePage (Cog.Lines entries) current page' pages total) ->
  In (i, track) entries ->
  outcome (Music.remove i p) = inr tt /\
  trace (Music.remove i p) = [Send ctx (RemovedFromQueue track)] /\
  Queue.len (Player.queue (final (Music.remove i p))) = Queue.len (Player.queue p) - 1 /\
  exists before after,
    Queue._queue (Player.queue p) = before ++ track :: after /\
    Z.of_nat (List.length before) = i - 1 /\
    Queue._queue (Player.queue (final (Music.remove i p))) = before ++ after.
Proof.
  intros Hreply Hin.
  destruct (queue_lines_inv _ _ _ _ _ _ _ Hreply) as [Hpage ->].
  apply in_page_lines in Hin; [|exact Hpage]. destruct Hin as [Hi Hnth].
  destruct (remove_nth p i track ltac:(lia) Hnth) as (before & after & Hl & Hlen & Hrun).
  rewrite Hrun. cbn [outcome trace final].
  repeat split.
  - unfold Queue.len. cbn. rewrite Hl, !length_app. cbn [List.length]. lia.
  - exists before, after. repeat split; assumption.
Qed.

Lemma listed_number_removes_listed_track_witness :
  trace (Music.remove 12 (playing_player track_a (repeat track_b 11 ++ [track_c]))) =
    [Send ctx (RemovedFromQueue track_c)].
Proof.
  refine (proj1 (proj2
    (listed_number_removes_listed_track
       (playing_player track_a (repeat track_b 11 ++ [track_c])) 2 12 track_c
       (Cog.enumerate 11 [track_b; track_c]) (Some track_a) 2 2 12 _ _))).
  - vm_compute. reflexivity.
  - vm_compute. right. left. reflexivity.
Defined.

(** Taking out the head of the queue. *)
Lemma remove_head (p : Player.t) (track : Track.t) (rest : list Track.t) :
  Queue._queue (Player.queue p) = track :: rest ->
  Music.remove 1 p =
    mkResult (inr tt)
      (Player.with_queue (Queue.with_queue rest (Player.queue p)) p)
      [Send ctx (RemovedFromQueue track)].
Proof.
  intros Hq.
  destruct (remove_nth p 1 track ltac:(lia)) as (before & after & Hl & Hlen & Hrun).
  { rewrite Hq. reflexivity. }
  destruct before; [|simpl in Hlen; lia].
  rewrite Hq in Hl. simpl in Hl. inversion Hl; subst. exact Hrun.
Qed.

Lemma times_remove_first (items : list Track.t) (p : Player.t) :
  Queue._queue (Player.queue p) = items ->
  times (List.length items) (Music.remove 1) p =
    mkResult (inr tt)
      (Player.with_queue (Queue.with_queue [] (Player.queue p)) p)
      (map (fun track => Send ctx (RemovedFromQueue track)) items).
Proof.
  revert p. induction items as [|track rest IH]; intros p Hq.
  - destruct p as [[l m o h] c b pos]. simpl in Hq. subst l. reflexivity.
  - cbn [List.length times]. unfold bind at 1.
    rewrite (remove_head p track rest Hq). cbn [outcome final trace].
    rewrite IH by reflexivity. destruct p as [[l m o h] c b pos]. reflexivity.
Qed.

(** X4.  [remove 1], issued as many times as the queue holds tracks, takes
    the tracks out in the order of the queue, one reply each, and leaves the
    queue empty; nothing else of the player changes and the node hears
    nothing.  One more [remove 1] is answered with "queue is empty". *)
Theorem remove_first_drains_in_order (p : Player.t) :
  let items := Queue._queue (Player.queue p) in
  let r := times (List.length items) (Music.remove 1) p in
  r = mkResult (inr tt)
        (Player.with_queue (Queue.with_queue [] (Player.queue p)) p)
        (map (fun track => Send ctx (RemovedFromQueue track)) items) /\
  Music.remove 1 (final r) = mkResult (inr tt) (final r) [Send ctx QueueIsEmpty].
Proof.
  cbn zeta. rewrite (times_remove_first _ p eq_refl). split; reflexivity.
Qed.

(** ** The order of play *)

(** One track-ended event outside mode [loop]: the head of the queue is
    played. *)
Lemma track_end_pops (p : Player.t) (track : Track.t) (rest : list Track.t) :
  Queue.mode (Player.queue p) <> QueueMode.loop ->
  Queue._queue (Player.queue p) = track :: rest ->
  Music.track_end_event p =
    mkResult (inr tt)
      (Player.mk
         (Queue.mk rest (Queue.mode (Player.queue p)) (Some track)
            (Queue.history (Player.queue p) ++ [track]))
         (Some track) (Player.paused p) 0)
      [Backend (BPlay track); Send home (NowPlaying track)].
Proof.
  destruct p as [q c b pos]. cbn [Player.queue Player.paused]. intros Hm Hq.
  run. unfold Queue.is_empty. rewrite Hq, (get_pop q track rest Hm Hq).
  reflexivity.
Qed.

(** With an empty queue the listener does nothing. *)
Lemma track_end_empty (p : Player.t) :
  Queue._queue (Player.queue p) = [] ->
  Music.track_end_event p = mkResult (inr tt) (Call.track_ended p) [].
Proof.
  destruct p as [q c b pos]. cbn [Player.queue]. intros Hq.
  run. unfold Queue.is_empty. rewrite Hq. reflexivity.
Qed.

Lemma times_track_end (items : list Track.t) (p : Player.t) :
  Queue.mode (Player.queue p) <> QueueMode.loop ->
  Queue._queue (Player.queue p) = items ->
  outcome (times (List.length items) Music.track_end_event p) = inr tt /\
  trace (times (List.length items) Music.track_end_event p) =
    flat_map (fun track => [Backend (BPlay track); Send home (NowPlaying track)]) items /\
  Queue._queue (Player.queue (final (times (List.length items) Music.track_end_event p))) = [] /\
  Queue.history (Player.queue (final (times (List.length items) Music.track_end_event p))) =
    Queue.history (Player.queue p) ++ items /\
  Player.current (final (times (List.length items) Music.track_end_event p)) =
    match rev items with
    | [] => Player.current p
    | last :: _ => Some last
    end.
Proof.
  revert p. induction items as [|track rest IH]; intros p Hm Hq.
  - cbn. rewrite app_nil_r. repeat split. exact Hq.
  - cbn [List.length times]. unfold bind at 1 2 3 4 5.
    rewrite (track_end_pops p track rest Hm Hq). cbn [outcome final trace].
    match goal with
    | |- context [times _ _ ?p'] =>
        destruct (IH p') as (Ho & Ht & Hq' & Hh & Hc); [exact Hm | reflexivity |]
    end.
    rewrite Ho, Ht, Hq', Hh, Hc. cbn [outcome final trace Player.queue Queue.history
                                      Player.current flat_map app].
    repeat split.
    + now rewrite <- app_assoc.
    + cbn [rev]. destruct (rev rest) as [|last front]; reflexivity.
Qed.

Lemma backend_of_plays (items : list Track.t) :
  backend (flat_map (fun track => [Backend (BPlay track); Send home (NowPlaying track)]) items) =
    map BPlay items.
Proof.
  induction items as [|track rest IH]; [reflexivity|].
  cbn [flat_map app map]. unfold backend in *. cbn [flat_map app]. now rewrite IH.
Qed.

(** X5.  First in, first out.  Outside mode [loop] (that is, in mode
    [normal] and also after [loop queue]), as many track-ended events as
    the queue holds tracks play the queued tracks in the order of the queue,
    each announced in the home channel, and empty the queue; the event after
    that plays nothing, sends nothing and leaves the session idle: the
    queue is not filled again. *)
Theorem track_ends_play_queue_in_order (p : Player.t) :
  Queue.mode (Player.queue p) <> QueueMode.loop ->
  let items := Queue._queue (Player.queue p) in
  let r := times (List.length items) Music.track_end_event p in
  outcome r = inr tt /\
  trace r = flat_map (fun track => [Backend (BPlay track); Send home (NowPlaying track)]) items /\
  Queue._queue (Player.queue (final r)) = [] /\
  trace (Music.track_end_event (final r)) = [] /\
  state_of (final (Music.track_end_event (final r))) = Idle.
Proof.
  cbn zeta. intros Hm.
  destruct (times_track_end _ p Hm eq_refl) as (Ho & Ht & Hq & _ & _).
  repeat split; try assumption.
  - rewrite (track_end_empty _ Hq). reflexivity.
  - rewrite (track_end_empty _ Hq). reflexivity.
Qed.

Lemma track_ends_play_queue_in_order_witness :
  let p := Player.mk (Queue.mk [track_b; track_c] QueueMode.loop_all (Some track_a) [track_a])
             (Some track_a) false 0 in
  backend (trace (times 2 Music.track_end_event p)) = [BPlay track_b; BPlay track_c] /\
  trace (Music.track_end_event (final (times 2 Music.track_end_event p))) = [].
Proof.
  cbn zeta.
  destruct (track_ends_play_queue_in_order
              (Player.mk (Queue.mk [track_b; track_c] QueueMode.loop_all (Some track_a) [track_a])
                 (Some track_a) false 0))
    as (_ & Ht & _ & He & _).
  - cbn. discriminate.
  - split; [|exact He].
    cbn [Player.queue Queue._queue List.length] in Ht. rewrite Ht. reflexivity.
Defined.

(** X6.  [playtop] means "play next": on a session with a current track,
    outside mode [loop], the track put on top is the one the next
    track-ended event plays, and the queue is then as it was before the
    command. *)
Theorem playtop_plays_next
    (p : Player.t) (query : string) (track : Track.t) (others : list Track.t) :
  Player.is_playing p = true ->
  Queue.mode (Player.queue p) <> QueueMode.loop ->
  let r := (Music.playtop query (track :: others) ;; Music.track_end_event) p in
  outcome r = inr tt /\
  trace r = [Send ctx (AddedToTop track 1); Backend (BPlay track); Send home (NowPlaying track)] /\
  Player.current (final r) = Some track /\
  Queue._queue (Player.queue (final r)) = Queue._queue (Player.queue p).
Proof.
  destruct p as [q c b pos]. cbn [Player.queue]. intros Hplaying Hm.
  destruct c as [cur|]; [|discriminate]. cbn zeta.
  unfold bind at 1 2 3 4.
  assert (Htop : Music.playtop query (track :: others) (Player.mk q (Some cur) b pos) =
                 mkResult (inr tt)
                   (Player.mk (Queue.appendleft track q) (Some cur) b pos)
                   [Send ctx (AddedToTop track 1)]) by reflexivity.
  rewrite Htop. cbn [outcome final trace].
  rewrite (track_end_pops _ track (Queue._queue q)); [|exact Hm|reflexivity].
  repeat split.
Qed.

Lemma playtop_plays_next_witness :
  backend (trace ((Music.playtop "song C" [track_c] ;; Music.track_end_event)
                    (playing_player track_a [track_b]))) = [BPlay track_c].
Proof.
  destruct (playtop_plays_next (playing_player track_a [track_b]) "song C" track_c [])
    as (_ & Ht & _).
  - reflexivity.
  - cbn. discriminate.
  - rewrite Ht. reflexivity.
Defined.

(** X7.  [play] queues at the end: on a session with a current track,
    outside mode [loop], the track-ended events that follow play what was
    queued before, in order, and the new track last. *)
Theorem play_plays_last
    (p : Player.t) (query : string) (track : Track.t) (others : list Track.t) :
  Player.is_playing p = true ->
  Queue.mode (Player.queue p) <> QueueMode.loop ->
  let items := Queue._queue (Player.queue p) in
  let r := (Music.play query (track :: others) ;;
            times (List.length items + 1) Music.track_end_event) p in
  outcome r = inr tt /\
  backend (trace r) = map BPlay (items ++ [track]) /\
  Player.current (final r) = Some track /\
  Queue._queue (Player.queue (final r)) = [].
Proof.
  destruct p as [q c b pos]. cbn [Player.queue]. intros Hplaying Hm.
  destruct c as [cur|]; [|discriminate]. cbn zeta.
  unfold bind at 1 2 3 4.
  assert (Hplay : exists n,
             Music.play query (track :: others) (Player.mk q (Some cur) b pos) =
               mkResult (inr tt)
                 (Player.mk (Queue.put_wait track q) (Some cur) b pos)
                 [Send ctx (AddedToQueue track n)]) by (eexists; reflexivity).
  destruct Hplay as [n Hplay]. rewrite Hplay. cbn [outcome final trace].
  replace (List.length (Queue._queue q) + 1)%nat
    with (List.length (Queue._queue q ++ [track]))
    by (rewrite length_app; reflexivity).
  destruct (times_track_end (Queue._queue q ++ [track])
              (Player.mk (Queue.put_wait track q) (Some cur) b pos))
    as (Ho & Ht & Hq & _ & Hc); [exact Hm | reflexivity |].
  rewrite Ho, Ht, Hq, Hc. rewrite rev_app_distr. cbn [rev app].
  repeat split. apply backend_of_plays.
Qed.

Lemma play_plays_last_witness :
  backend (trace ((Music.play "song C" [track_c] ;; times 2 Music.track_end_event)
                    (playing_player track_a [track_b]))) = [BPlay track_b; BPlay track_c].
Proof.
  destruct (play_plays_last (playing_player track_a [track_b]) "song C" track_c [])
    as (_ & Ht & _).
  - reflexivity.
  - cbn. discriminate.
  - exact Ht.
Defined.

(** ** What every command does *)

Lemma remove_ending (position : Z) (p : Player.t) :
  Ending (CmdRemove position) p (Music.remove position p).
Proof.
  destruct (nth_error (Queue._queue (Player.queue p)) (Z.to_nat (position - 1)))
    as [track|] eqn:Hnth.
  - destruct (Z_le_dec 1 position) as [Hpos|Hpos].
    + destruct (remove_nth p position track Hpos Hnth) as (before & after & _ & _ & Hrun).
      rewrite Hrun. now apply (Done _ _ _ _ []).
    + assert (Hne : Queue.len (Player.queue p) <> 0).
      { unfold Queue.len. destruct (Queue._queue (Player.queue p)); [|cbn; lia].
        destruct (Z.to_nat (position - 1)); discriminate. }
      destruct p as [q c b pos]. cbn [Player.queue] in *. run.
      apply Z.eqb_neq in Hne. rewrite Hne.
      replace (position <? 1) with true by (symmetry; apply Z.ltb_lt; lia).
      now apply Refused.
  - apply nth_error_None in Hnth.
    destruct p as [q c b pos]. cbn [Player.queue] in *. run.
    destruct (Queue.len q =? 0) eqn:Hz; [now apply Refused|].
    apply Z.eqb_neq in Hz.
    replace ((position <? 1) || (position >? Queue.len q)) with true;
      [now apply Refused|].
    symmetry. apply orb_true_iff. rewrite Z.ltb_lt, Z.gtb_ltb, Z.ltb_lt.
    unfold Queue.len in *. lia.
Qed.

(** Every command of [Music] ends in one of three ways: refused, with the
    player as it was and the refusal as the only event; done, with some
    commands to the node followed by one reply; or, for [pause] and [resume]
    on a session without a current track, stopped by the missing track
    after the pause command has gone out. *)
Lemma exec_ending (c : Cmd) (p : Player.t) : Ending c p (exec c p).
Proof.
  destruct c; cbn [exec]; try apply remove_ending.
  - (* play *)
    destruct tracks as [|track rest]; [now apply Refused|].
    destruct p as [q [cur|] b pos].
    + now apply (Done _ _ _ _ []).
    + destruct (get_nonempty (Queue.put_wait track q)) as (next & q' & Hget).
      { unfold Queue.put_wait, Queue.with_queue. cbn.
        destruct (Queue._queue q); discriminate. }
      run. cbn [negb]. rewrite Hget. cbn.
      now apply (Done _ _ _ _ [BPlay next]).
  - (* playtop *)
    destruct tracks as [|track rest]; [now apply Refused|].
    destruct p as [q [cur|] b pos].
    + now apply (Done _ _ _ _ []).
    + destruct (get_nonempty (Queue.appendleft track q)) as (next & q' & Hget);
        [discriminate|].
      run. cbn [negb]. rewrite Hget. cbn.
      now apply (Done _ _ _ _ [BPlay next]).
  - (* pause *)
    destruct p as [q [cur|] [|] pos].
    + now apply Refused.
    + now apply (Done _ _ _ _ [BPause true]).
    + now apply Refused.
    + apply Crashed; auto.
  - (* resume *)
    destruct p as [q [cur|] [|] pos].
    + now apply (Done _ _ _ _ [BPause false]).
    + now apply Refused.
    + apply Crashed; auto.
    + now apply Refused.
  - (* stop *)
    now apply (Done _ _ _ _ [BStop]).
  - (* now *)
    destruct p as [q [cur|] b pos].
    + now apply (Done _ _ _ _ []).
    + now apply Refused.
  - (* seek *)
    destruct p as [q [cur|] b pos]; [|now apply Refused].
    run. cbn [negb].
    destruct ((seconds <? 0) || (seconds * 1000 >? Track.length cur)).
    + now apply Refused.
    + now apply (Done _ _ _ _ [BSeek (seconds * 1000)]).
  - (* loop *)
    unfold Music.loop.
    destruct (existsb (String.eqb (Music.lower mode)) ["track"; "queue"; "off"]%string);
      cbn [negb]; [|now apply Refused].
    destruct (String.eqb (Music.lower mode) "track");
      [|destruct (String.eqb (Music.lower mode) "queue")];
      now apply (Done _ _ _ _ []).
  - (* rewind *)
    destruct p as [q [cur|] b pos]; [|now apply Refused].
    now apply (Done _ _ _ _ [BSeek (Z.max 0 (pos - seconds * 1000))]).
  - (* forward *)
    destruct p as [q [cur|] b pos]; [|now apply Refused].
    now apply (Done _ _ _ _ [BSeek (Z.min (Track.length cur) (pos + seconds * 1000))]).
Qed.

(** X8.  A refusal is all that happens: whenever a command of [Music]
    sends one of the refusing embeds ("no tracks found", "no track is
    playing", "already paused", "no paused track", "invalid seek position",
    "queue is empty", "invalid position", "invalid loop mode"), it has
    completed, the player is exactly as before, nothing went to the node and
    the refusal is the only embed, sent to the invoking context. *)
Theorem refusal_changes_nothing (c : Cmd) (p : Player.t) (to : Sink) (e : Embed) :
  In (Send to e) (trace (exec c p)) ->
  refusal e = true ->
  exec c p = mkResult (inr tt) p [Send ctx e].
Proof.
  intros Hin Hrefusal. destruct (exec_ending c p) as [e' He' | e' p' cmds He' | Hc Hcur];
    cbn [trace] in Hin.
  - destruct Hin as [Heq|[]]. inversion Heq; subst. reflexivity.
  - apply in_app_or in Hin. destruct Hin as [Hin|[Heq|[]]].
    + apply in_map_iff in Hin. destruct Hin as (cmd & Hcmd & _). discriminate.
    + inversion Heq; subst. congruence.
  - destruct Hin as [Heq|[]]. discriminate.
Qed.

Lemma refusal_changes_nothing_witness :
  Music.seek 500 (playing_player track_a [track_b]) =
    mkResult (inr tt) (playing_player track_a [track_b]) [Send ctx (InvalidSeekPosition 200)].
Proof.
  apply (refusal_changes_nothing (CmdSeek 500) (playing_player track_a [track_b]) ctx
           (InvalidSeekPosition 200)).
  - left. reflexivity.
  - reflexivity.
Defined.

(** X9.  The only way a command of [Music] stops with an exception is
    [pause] or [resume] on a session without a current track that is not
    refused: the exception is the [AttributeError] of reading the title of
    no track, and by then the pause command has reached the node and the
    pause flag has flipped.  No command raises [QueueEmpty] or
    [IndexError]. *)
Theorem only_pause_and_resume_can_crash (c : Cmd) (p : Player.t) (e : Exn) :
  outcome (exec c p) = inl e ->
  e = AttributeError /\
  Player.current p = None /\
  ((c = CmdPause /\ Player.paused p = false) \/ (c = CmdResume /\ Player.paused p = true)) /\
  trace (exec c p) = [Backend (BPause (negb (Player.paused p)))] /\
  final (exec c p) = Player.with_paused (negb (Player.paused p)) p.
Proof.
  intros Hout.
  pose proof (exec_ending c p) as Hend.
  inversion Hend as [e' He' Heq | e' p' cmds He' Heq | Hc Hcur Heq];
    rewrite <- Heq in Hout; cbn [outcome] in Hout; try discriminate.
  inversion Hout; subst e. repeat split; try assumption.
  destruct p as [q cur b pos]. cbn [Player.current Player.paused] in *. subst cur.
  destruct Hc as [-> | ->]; cbn [exec] in Heq; destruct b;
    try discriminate Heq; [left | right]; split; reflexivity.
Qed.

Lemma only_pause_and_resume_can_crash_witness :
  trace (Music.pause fresh_player) = [Backend (BPause true)] /\
  Player.paused (final (Music.pause fresh_player)) = true.
Proof.
  destruct (only_pause_and_resume_can_crash CmdPause fresh_player AttributeError eq_refl)
    as (_ & _ & _ & Ht & Hf).
  split; [exact Ht | cbn [exec] in Hf; rewrite Hf; reflexivity].
Defined.

(** X10.  One command, one reply: a command of [Music] that completes has
    sent exactly one embed, to the invoking context and never to the home
    channel, as its last event; everything before it is a command to the
    node. *)
Theorem one_reply_per_command (c : Cmd) (p : Player.t) :
  outcome (exec c p) = inr tt ->
  exists (e : Embed) (cmds : list BackendCmd),
    trace (exec c p) = map Backend cmds ++ [Send ctx e] /\
    sends (trace (exec c p)) = [(ctx, e)].
Proof.
  assert (Hsends : forall cmds e,
             sends (map Backend cmds ++ [Send ctx e]) = [(ctx, e)]).
  { intros cmds e. unfold sends. rewrite flat_map_app.
    induction cmds as [|cmd cmds IH]; [reflexivity | exact IH]. }
  destruct (exec_ending c p) as [e He | e p' cmds He | Hc Hcur];
    cbn [outcome trace]; intros Hout.
  - exists e, []. split; reflexivity.
  - exists e, cmds. split; [reflexivity | apply Hsends].
  - discriminate.
Qed.

Lemma one_reply_per_command_witness :
  exists (e : Embed) (cmds : list BackendCmd),
    trace (Music.stop full_player) = map Backend cmds ++ [Send ctx e].
Proof.
  destruct (one_reply_per_command CmdStop full_player eq_refl) as (e & cmds & Ht & _).
  exists e, cmds. exact Ht.
Defined.

(** ** After stop, and pausing *)

(** X11.  After [stop] the session has to be started again: [seek],
    [rewind], [forward], [now] and [skip] are refused for want of a playing
    track, [remove] and [clear] and the queue listing find the queue empty,
    whatever their argument, and a track-ended event plays nothing. *)
Theorem after_stop_everything_is_refused (p : Player.t) :
  let s := final (Music.stop p) in
  (forall seconds, Music.seek seconds s = mkResult (inr tt) s [Send ctx NoTrackPlaying]) /\
  (forall seconds, Music.rewind seconds s = mkResult (inr tt) s [Send ctx NoTrackPlaying]) /\
  (forall seconds, Music.forward seconds s = mkResult (inr tt) s [Send ctx NoTrackPlaying]) /\
  Music.now s = mkResult (inr tt) s [Send ctx NoTrackPlaying] /\
  Cog.skip s = Cog.mkOutcome s [] (inr Cog.NotPlaying) /\
  (forall position, Music.remove position s = mkResult (inr tt) s [Send ctx QueueIsEmpty]) /\
  Cog.clear s = Cog.mkOutcome s [] (inr Cog.QueueAlreadyEmpty) /\
  (forall page, Cog.queue page s = Cog.mkOutcome s [] (inr Cog.EmptyQueue)) /\
  Music.track_end_event s = mkResult (inr tt) s [].
Proof.
  destruct p as [q c b pos]. cbn zeta. repeat split.
Qed.

(** X12.  On a session with a current track that is not paused, [pause]
    followed by [resume] brings the player back to exactly where it was,
    with one pause and one resume sent to the node; a second [pause] in a
    row is refused and sends nothing more to the node. *)
Theorem pause_then_resume_restores (p : Player.t) (track : Track.t) :
  Player.current p = Some track ->
  Player.paused p = false ->
  (Music.pause ;; Music.resume) p =
    mkResult (inr tt) p
      [Backend (BPause true); Send ctx (Paused track);
       Backend (BPause false); Send ctx (Resumed track)] /\
  trace ((Music.pause ;; Music.pause) p) =
    [Backend (BPause true); Send ctx (Paused track); Send ctx AlreadyPaused] /\
  state_of (final ((Music.pause ;; Music.pause) p)) = PausedState.
Proof.
  destruct p as [q c b pos]. cbn [Player.current Player.paused].
  intros -> ->. repeat split.
Qed.

Lemma pause_then_resume_restores_witness :
  final ((Music.pause ;; Music.resume) (playing_player track_a [track_b])) =
    playing_player track_a [track_b].
Proof.
  destruct (pause_then_resume_restores (playing_player track_a [track_b]) track_a
              eq_refl eq_refl) as [H _].
  rewrite H. reflexivity.
Defined.

(** ** The shape of the progress bar *)

Lemma repeat_cells_length (n m : Z) :
  Z.of_nat (List.length (repeat true (Z.to_nat n) ++ repeat false (Z.to_nat m))) =
    Z.max 0 n + Z.max 0 m.
Proof.
  rewrite length_app, !repeat_length. lia.
Qed.

(** X13.  While the position is within a track of up to 2^47 ms,
    [0 <= current <= total <= 2^47], the bar of [_create_progress_bar] has
    exactly 20 cells, the filled ones first; it is completely filled only at
    the very end of the track ([current = total], for a track of positive
    length) and has no filled cell as long as less than a twentieth of the
    track has played. *)
Theorem progress_bar_has_twenty_cells (current total : Z) :
  0 <= current <= total ->
  total <= 2 ^ 47 ->
  let n := Music.filled current total 20 in
  0 <= n <= 20 /\
  bar (Music._create_progress_bar current total 20) =
    repeat true (Z.to_nat n) ++ repeat false (Z.to_nat (20 - n)) /\
  List.length (bar (Music._create_progress_bar current total 20)) = 20%nat /\
  (0 < total -> (n = 20 <-> current = total)) /\
  (0 < total -> (n = 0 <-> 20 * current < total)).
Proof.
  intros H Hbound. cbn zeta.
  assert (Hn : 0 <= Music.filled current total 20 <= 20 /\
               (0 < total -> (Music.filled current total 20 = 20 <-> current = total)) /\
               (0 < total -> (Music.filled current total 20 = 0 <-> 20 * current < total))).
  { destruct (Z.eq_dec total 0) as [->|Hne].
    - rewrite filled_zero_total. repeat split; lia.
    - rewrite filled_floor by lia.
      pose proof (Z.div_mod (20 * current) total Hne).
      pose proof (Z.mod_pos_bound (20 * current) total ltac:(lia)).
      repeat split; intros; nia. }
  destruct Hn as (Hbound' & Hfull & Hnone).
  split; [exact Hbound'|]. split; [reflexivity|].
  split; [|split; assumption].
  apply Nat2Z.inj. unfold Music._create_progress_bar. cbn [bar].
  rewrite repeat_cells_length. lia.
Qed.

Lemma progress_bar_has_twenty_cells_witness :
  bar (Music._create_progress_bar 100000 200000 20) = repeat true 10 ++ repeat false 10.
Proof.
  destruct (progress_bar_has_twenty_cells 100000 200000 ltac:(lia) ltac:(lia))
    as (_ & Hbar & _).
  rewrite Hbar. vm_compute. reflexivity.
Defined.

(** X14.  Past the end of the track the bar is not clamped: for
    [0 < total < current], on a track of up to 2^47 ms and a position below
    2^63, every cell of the bar is filled and there are at least 20 of
    them, at least 21 as soon as [current] exceeds [total] by a
    twentieth. *)
Theorem progress_bar_overflows_past_the_end (current total : Z) :
  0 < total < current ->
  total <= 2 ^ 47 ->
  current < 2 ^ 63 ->
  let n := Music.filled current total 20 in
  bar (Music._create_progress_bar current total 20) = repeat true (Z.to_nat n) /\
  20 <= n /\
  (21 * total <= 20 * current -> 21 <= n).
Proof.
  intros H Hbound _. cbn zeta.
  destruct (filled_past_the_end current total H Hbound) as [H20 H21].
  split; [|split; assumption].
  unfold Music._create_progress_bar. cbn [bar].
  replace (Z.to_nat (20 - Music.filled current total 20)) with 0%nat by lia.
  cbn [repeat]. apply app_nil_r.
Qed.

Lemma progress_bar_overflows_past_the_end_witness :
  bar (Music._create_progress_bar 300000 200000 20) = repeat true 30.
Proof.
  destruct (progress_bar_overflows_past_the_end 300000 200000
              ltac:(lia) ltac:(lia) ltac:(lia)) as (Hbar & _).
  rewrite Hbar. vm_compute. reflexivity.
Defined.

(** X15.  The two clock readings of the progress bar lose nothing but the
    milliseconds: for every [current] and [total], the reading [(m, s)] has
    [0 <= s <= 59] and [60 * m + s] is the value in whole seconds, rounded
    down. *)
Theorem clock_readings_are_whole_seconds (current total bar_length : Z) :
  let pb := Music._create_progress_bar current total bar_length in
  0 <= snd (current_time pb) <= 59 /\
  60 * fst (current_time pb) + snd (current_time pb) = current / 1000 /\
  0 <= snd (total_time pb) <= 59 /\
  60 * fst (total_time pb) + snd (total_time pb) = total / 1000.
Proof.
  cbn zeta. unfold Music._create_progress_bar. cbn [current_time total_time fst snd].
  assert (Hclock : forall x, 0 <= x mod 60000 / 1000 <= 59 /\
                             60 * (x / 60000) + x mod 60000 / 1000 = x / 1000).
  { intros x.
    pose proof (Z.div_mod x 60000 ltac:(lia)).
    pose proof (Z.mod_pos_bound x 60000 ltac:(lia)).
    pose proof (Z.div_mod (x mod 60000) 1000 ltac:(lia)).
    pose proof (Z.mod_pos_bound (x mod 60000) 1000 ltac:(lia)).
    pose proof (Z.div_mod x 1000 ltac:(lia)).
    pose proof (Z.mod_pos_bound x 1000 ltac:(lia)).
    split; lia. }
  destruct (Hclock current), (Hclock total). repeat split; lia.
Qed.

(** ** loop, search, clear and skip *)

(** X16.  [loop] reads its argument in lower case only, so arguments that
    differ in case do the same; whatever the argument, the command
    completes, sends nothing to the node, and changes nothing of the player
    but the mode of the queue: the queued tracks, the current track, the
    pause flag and the position stay. *)
Theorem loop_is_case_insensitive (mode mode' : string) (p : Player.t) :
  Music.lower mode = Music.lower mode' ->
  Music.loop mode p = Music.loop mode' p /\
  outcome (Music.loop mode p) = inr tt /\
  backend (trace (Music.loop mode p)) = [] /\
  final (Music.loop mode p) =
    Player.with_queue
      (Queue.with_mode (Queue.mode (Player.queue (final (Music.loop mode p))))
         (Player.queue p))
      p.
Proof.
  intros Hlower. split; [unfold Music.loop; now rewrite Hlower|].
  destruct p as [[l m o h] c b pos]. unfold Music.loop.
  destruct (existsb (String.eqb (Music.lower mode)) ["track"; "queue"; "off"]%string);
    cbn [negb]; [|repeat split].
  destruct (String.eqb (Music.lower mode) "track");
    [|destruct (String.eqb (Music.lower mode) "queue")]; repeat split.
Qed.

Lemma loop_is_case_insensitive_witness :
  Music.loop "TRACK" fresh_player = Music.loop "track" fresh_player /\
  Queue.mode (Player.queue (final (Music.loop "Queue" fresh_player))) = QueueMode.loop_all.
Proof.
  split.
  - apply (loop_is_case_insensitive "TRACK" "track" fresh_player). reflexivity.
  - reflexivity.
Defined.

(** X17.  [search] lists the first ten results and no more, in the order
    of the search, numbered from 1: [(i, track)] is a line exactly when
    [1 <= i <= 10] and [track] is the [i]-th result. *)
Theorem search_lists_first_ten
    (query : string) (tracks : list Track.t) (i : Z) (track : Track.t) :
  tracks <> [] ->
  exists entries,
    Cog.search query tracks = Cog.SearchResults query entries /\
    List.length entries = Nat.min 10 (List.length tracks) /\
    (In (i, track) entries <->
       1 <= i <= 10 /\ nth_error tracks (Z.to_nat (i - 1)) = Some track).
Proof.
  intros Hne. destruct tracks as [|first rest]; [congruence|].
  eexists. split; [reflexivity|].
  split; [now rewrite enumerate_length, length_firstn|].
  rewrite in_enumerate. split.
  - intros (k & Hk & Hi). rewrite nth_error_firstn in Hk.
    destruct (Nat.ltb k 10) eqn:E; [apply Nat.ltb_lt in E | discriminate].
    split; [lia|]. replace (Z.to_nat (i - 1)) with k by lia. exact Hk.
  - intros [Hi Hnth]. exists (Z.to_nat (i - 1)). split; [|lia].
    rewrite nth_error_firstn.
    replace (Nat.ltb (Z.to_nat (i - 1)) 10) with true
      by (symmetry; apply Nat.ltb_lt; lia).
    exact Hnth.
Qed.

Lemma search_lists_first_ten_witness :
  exists entries,
    Cog.search "song" (repeat track_a 10 ++ [track_b]) = Cog.SearchResults "song" entries /\
    List.length entries = 10%nat /\
    ~ In (11, track_b) entries.
Proof.
  destruct (search_lists_first_ten "song" (repeat track_a 10 ++ [track_b]) 11 track_b)
    as (entries & Hrun & Hlen & Hin); [discriminate|].
  exists entries. split; [exact Hrun|]. split; [exact Hlen|].
  intros H. apply Hin in H. lia.
Defined.

(** X18.  [clear] is refused exactly when the queue is already empty;
    otherwise it empties the queue, and in both cases it sends nothing to
    the node and leaves the current track, the pause flag, the position and
    the loop mode alone, unlike [stop].  A second [clear] is always
    refused, and the next track-ended event plays nothing. *)
Theorem clear_keeps_the_current_track (p : Player.t) :
  let o := Cog.clear p in
  (Cog.reply o = inr Cog.QueueAlreadyEmpty <-> Queue._queue (Player.queue p) = []) /\
  Cog.after o = Player.with_queue (Queue.with_queue [] (Player.queue p)) p /\
  Cog.commands o = [] /\
  Player.current (Cog.after o) = Player.current p /\
  Queue.mode (Player.queue (Cog.after o)) = Queue.mode (Player.queue p) /\
  Cog.reply (Cog.clear (Cog.after o)) = inr Cog.QueueAlreadyEmpty /\
  trace (Music.track_end_event (Cog.after o)) = [].
Proof.
  destruct p as [[l m ld h] c b pos]. unfold Cog.clear, Queue.len.
  cbn [Player.queue Queue._queue].
  destruct l as [|x l]; cbn; repeat split; intros; try discriminate; reflexivity.
Qed.

(** X19.  [skip] on a session without a current track is refused and asks
    nothing of the node.  On a session with one it asks the node to skip,
    names the skipped track and makes the queue forget the track it handed
    out last, nothing else; so in every loop mode the track-ended event
    that follows plays the head of the queue, which leaves the queue, or
    leaves the session idle when nothing is queued. *)
Theorem skip_advances_to_the_head (p : Player.t) :
  match Player.current p with
  | None => Cog.skip p = Cog.mkOutcome p [] (inr Cog.NotPlaying)
  | Some current =>
      Cog.skip p =
        Cog.mkOutcome
          (Player.with_queue (Queue.with_loaded None (Player.queue p)) p)
          [Cog.Skip] (inr (Cog.Skipped current)) /\
      match Queue._queue (Player.queue p) with
      | [] =>
          trace (Music.track_end_event (Cog.after (Cog.skip p))) = [] /\
          state_of (final (Music.track_end_event (Cog.after (Cog.skip p)))) = Idle
      | track :: rest =>
          trace (Music.track_end_event (Cog.after (Cog.skip p))) =
            [Backend (BPlay track); Send home (NowPlaying track)] /\
          Player.current (final (Music.track_end_event (Cog.after (Cog.skip p)))) =
            Some track /\
          Queue._queue (Player.queue (final (Music.track_end_event (Cog.after (Cog.skip p)))))
            = rest
      end
  end.
Proof.
  destruct p as [[l m ld h] [cur|] b pos]; cbn [Player.current]; [|reflexivity].
  split; [reflexivity|].
  unfold Cog.skip, Cog.player_skip.
  cbn [Player.is_playing Player.current negb Cog.after Player.queue Queue._queue].
  destruct l as [|track rest].
  - split; reflexivity.
  - run. unfold Queue.is_empty, Queue.get, Queue.with_loaded, Queue.with_queue.
    cbn [Queue._queue Queue.mode Queue._loaded Queue.history].
    destruct m; repeat split.
Qed.

(** ** Playing into a looping session *)

(** X20.  In mode [loop], once the queue has handed out a track [last], a
    [play] on an idle session does not play what it found: the node is told
    to play [last] again, the reply announces the found track as now
    playing, and the found track stays in the queue. *)
Theorem play_on_idle_looping_session
    (p : Player.t) (query : string) (track last : Track.t) (others : list Track.t) :
  Player.current p = None ->
  Queue.mode (Player.queue p) = QueueMode.loop ->
  Queue._loaded (Player.queue p) = Some last ->
  let r := Music.play query (track :: others) p in
  outcome r = inr tt /\
  trace r = [Backend (BPlay last); Send ctx (NowPlayingFirst track 1)] /\
  Player.current (final r) = Some last /\
  Queue._queue (Player.queue (final r)) = Queue._queue (Player.queue p) ++ [track].
Proof.
  destruct p as [q c b pos]. cbn [Player.current Player.queue].
  intros -> Hm Hl. cbn zeta. run. cbn [negb].
  rewrite (get_loop (Queue.put_wait track q) last) by assumption.
  repeat split.
Qed.

Lemma play_on_idle_looping_session_witness :
  let p := final (Music.track_end_event looping_player) in
  trace (Music.play "song B" [track_b] p) =
    [Backend (BPlay track_a); Send ctx (NowPlayingFirst track_b 1)] /\
  Queue._queue (Player.queue (final (Music.play "song B" [track_b] p))) = [track_b].
Proof.
  cbn zeta.
  destruct (play_on_idle_looping_session (final (Music.track_end_event looping_player))
              "song B" track_b track_a [] eq_refl eq_refl eq_refl) as (_ & Ht & _ & Hq).
  split; [exact Ht | exact Hq].
Defined.

(** ** Relative seeks and round trips *)

(** X21.  [forward] and then [rewind] by the same number of seconds, not
    negative, from a position within the track: when the step forward stayed
    inside the track the position is back where it was; when it was cut off
    at the end of the track, the position ends the step's length before the
    end (or at 0), not where it started. *)
Theorem forward_then_rewind (p : Player.t) (track : Track.t) (seconds : Z) :
  Player.current p = Some track ->
  0 <= seconds ->
  0 <= Player.position p <= Track.length track ->
  let r := (Music.forward seconds ;; Music.rewind seconds) p in
  outcome r = inr tt /\
  backend (trace r) =
    [BSeek (Z.min (Track.length track) (Player.position p + seconds * 1000));
     BSeek (Player.position (final r))] /\
  Player.position (final r) =
    (if Player.position p + seconds * 1000 <=? Track.length track
     then Player.position p
     else Z.max 0 (Track.length track - seconds * 1000)).
Proof.
  destruct p as [q c b pos]. cbn [Player.current Player.position].
  intros -> Hs Hpos. cbn zeta. run. cbn.
  repeat split.
  destruct (pos + seconds * 1000 <=? Track.length track) eqn:E;
    [apply Z.leb_le in E | apply Z.leb_gt in E]; lia.
Qed.

Lemma forward_then_rewind_witness :
  Player.position (final ((Music.forward 10 ;; Music.rewind 10)
                            (Player.mk Queue.empty (Some track_a) false 195000))) = 190000.
Proof.
  destruct (forward_then_rewind (Player.mk Queue.empty (Some track_a) false 195000)
              track_a 10 eq_refl) as (_ & _ & Hpos).
  - lia.
  - cbn. lia.
  - rewrite Hpos. reflexivity.
Defined.

Lemma app_same_length (a b x y : list Track.t) :
  List.length a = List.length b -> a ++ x = b ++ y -> a = b /\ x = y.
Proof.
  revert b. induction a as [|h a IH]; intros [|h' b] Hlen Heq; simpl in *;
    try discriminate; [split; [reflexivity | exact Heq]|].
  inversion Heq; subst. destruct (IH b) as [-> ->]; [lia | assumption | split; reflexivity].
Qed.

(** X22.  The position a command reports takes the track out again: on a
    session with a current track, [play] followed by [remove] at the
    position [play] reported, and [playtop] followed by [remove 1], both
    leave the player exactly as it was before, and the second reply names
    the track that was added. *)
Theorem reported_position_removes_the_track
    (p : Player.t) (query : string) (track : Track.t) (others : list Track.t) :
  Player.is_playing p = true ->
  let n := Queue.len (Player.queue p) + 1 in
  (Music.play query (track :: others) ;; Music.remove n) p =
    mkResult (inr tt) p
      [Send ctx (AddedToQueue track n); Send ctx (RemovedFromQueue track)] /\
  (Music.playtop query (track :: others) ;; Music.remove 1) p =
    mkResult (inr tt) p
      [Send ctx (AddedToTop track 1); Send ctx (RemovedFromQueue track)].
Proof.
  destruct p as [[l m ld h] c b pos]. cbn [Player.queue]. intros Hplaying.
  destruct c as [cur|]; [|discriminate]. cbn zeta. split.
  - unfold bind.
    assert (Hplay : Music.play query (track :: others)
                      (Player.mk (Queue.mk l m ld h) (Some cur) b pos) =
                    mkResult (inr tt)
                      (Player.mk (Queue.mk (l ++ [track]) m ld h) (Some cur) b pos)
                      [Send ctx (AddedToQueue track (Queue.len (Queue.mk l m ld h) + 1))]).
    { run. cbn [negb]. unfold Queue.len, Queue.put_wait, Queue.with_queue.
      cbn [Queue._queue Queue.mode Queue._loaded Queue.history].
      rewrite length_app. cbn [List.length].
      replace (Z.of_nat (List.length l + 1)) with (Z.of_nat (List.length l) + 1) by lia.
      reflexivity. }
    rewrite Hplay. cbn [outcome final trace].
    destruct (remove_nth (Player.mk (Queue.mk (l ++ [track]) m ld h) (Some cur) b pos)
                (Queue.len (Queue.mk l m ld h) + 1) track)
      as (before & after & Hl & Hlen & Hrun).
    { unfold Queue.len. lia. }
    { unfold Queue.len. cbn [Player.queue Queue._queue].
      replace (Z.to_nat (Z.of_nat (List.length l) + 1 - 1)) with (List.length l + 0)%nat by lia.
      rewrite nth_error_app2 by lia.
      replace (List.length l + 0 - List.length l)%nat with 0%nat by lia. reflexivity. }
    cbn [Player.queue Queue._queue] in Hl. unfold Queue.len in Hlen.
    cbn [Queue._queue] in Hlen.
    destruct (app_same_length l before [track] (track :: after)) as [<- Hafter];
      [lia | exact Hl |].
    inversion Hafter; subst after. rewrite Hrun. cbn [outcome final trace].
    rewrite app_nil_r. reflexivity.
  - unfold bind.
    assert (Htop : Music.playtop query (track :: others)
                     (Player.mk (Queue.mk l m ld h) (Some cur) b pos) =
                   mkResult (inr tt)
                     (Player.mk (Queue.mk (track :: l) m ld h) (Some cur) b pos)
                     [Send ctx (AddedToTop track 1)]) by reflexivity.
    rewrite Htop. cbn [outcome final trace].
    rewrite (remove_head _ track l) by reflexivity. reflexivity.
Qed.

Lemma reported_position_removes_the_track_witness :
  final ((Music.play "song C" [track_c] ;; Music.remove 2)
           (playing_player track_a [track_b])) = playing_player track_a [track_b].
Proof.
  destruct (reported_position_removes_the_track (playing_player track_a [track_b])
              "song C" track_c [] eq_refl) as [H _].
  cbn zeta in H. change (Queue.len (Player.queue (playing_player track_a [track_b])) + 1)
    with 2 in H.
  rewrite H. reflexivity.
Defined.
